(** * mgo: a typed collection layer over the MongoDB Go driver

    A shallow embedding of [collection.go], of the baseline collection (the
    second, envelope-free implementation of the same interface) and of
    [mgo.go], followed by the properties of the specification that were
    checked against it.

    Conventions of the embedding:
    - [bson.M] is a Go map: [option (gmap string value)], where [None] is the
      nil map.  Reading a nil map finds nothing, writing to it panics.
    - Maps are kept by value.  The one statement of the source that writes
      into a map it was handed ([setUpdate], on the map under [$set]) is
      rendered by putting the written map back where it was read.  A map
      that the caller reaches the option through along two paths is thereby
      treated as two maps; no property below is about such sharing.
    - A pointer that may be nil ([*int64], [*time.Time]) is an [option].
    - A Go function that reads the clock, draws an identifier, calls the
      driver or may panic lives in the monad [Go]: a state monad over the
      [World], whose outcome is a value or a panic.
    - An option mutator ([type Option func(o *option)]) returns nothing and
      has the pointed-to struct as its only channel, so it is a function
      [option_ → option_].
    - The clock, the identifier source, the driver and the network are
      parameters ([Runtime], [Driver], [Network]); module [sim] instantiates
      them so that the code can be run. *)

From stdpp Require Import gmap strings list fin_maps.
From Stdlib Require Import ZArith Ascii.

#[local] Set Warnings "-register-all".
#[local] Open Scope Z_scope.

(* ===================================================================== *)
(** * BSON values *)
(* ===================================================================== *)

Module bson.

(** [primitive.ObjectID] is a [[12]byte]; it is kept as the 96-bit number
    its bytes spell.  [time.Time] is kept as the clock reading it holds. *)
Definition ObjectID := Z.
Definition Time := Z.

(** What an [interface{}] inside a document may hold.  [VM] is a [bson.M]
    (possibly the nil map), [VD] a [bson.D], [VA] a [bson.A]. *)
Inductive value : Type :=
| VNil
| VBool (b : bool)
| VInt (n : Z)
| VStr (s : string)
| VTime (t : Time)
| VOid (id : ObjectID)
| VM (m : option (gmap string value))
| VD (d : list (string * value))
| VA (a : list value).

(** [bson.M], i.e. [map[string]interface{}]. *)
Abbreviation M := (option (gmap string value)).

(** [v, ok := m[k]]: a nil map reads as an empty one. *)
Definition get (m : M) (k : string) : option value :=
  match m with
  | None => None
  | Some d => d !! k
  end.

(** A raw document as the store returns it. *)
Definition Raw := list (string * value).

(** The dynamic type test of [val.(bson.M)]. *)
Definition is_M (v : value) : bool :=
  match v with
  | VM _ => true
  | _ => false
  end.

End bson.

Import bson.

(* ===================================================================== *)
(** * The Go runtime: panics, the clock, identifiers, the driver *)
(* ===================================================================== *)

Definition NilObjectID : ObjectID := 0.

Inductive error : Type :=
| ErrNoDocuments
| ErrOther (msg : string).

Inductive panic : Type :=
| PanicTypeAssertion     (* interface conversion: the value is not a bson.M *)
| PanicNilMap            (* assignment to entry in nil map *)
| PanicError (msg : string).

(** ** Entity and the record built at insert time *)

Record Entity : Type := mkEntity {
  ID : ObjectID;
  CreatedAt : Time;
  UpdatedAt : Time;
  DeletedAt : option Time
}.

(** The anonymous struct of [newRecord]: [E] and [V], both tagged
    [bson:",inline"]. *)
Record record (T : Type) : Type := mkRecord {
  E : Entity;
  V : T
}.
Arguments mkRecord {T} _ _.
Arguments E {T} _.
Arguments V {T} _.

(** [entiter]: the constraint on the record type of a collection. *)
Class entiter (T : Type) := entity : T → Entity.

#[export] Instance Entity_entiter : entiter Entity := fun e => e.

(** ** The option struct *)

(** Go's struct [option]; the trailing underscore keeps it apart from the
    [option] type of the prelude. *)
Record option_ : Type := mkOption {
  Filter : M;
  Update : M;
  Sort : M;
  Projection : M;
  Pipeline : option (list M);
  Skip : option Z;
  Limit : option Z
}.

(** [type Option func(o *option)]. *)
Definition Option : Type := option_ → option_.

(** [options.FindOptions], restricted to the fields [findOptions] fills in;
    every other field of the driver's struct keeps its zero value. *)
Record FindOptions : Type := mkFindOptions {
  fo_Sort : M;
  fo_Skip : option Z;
  fo_Limit : option Z;
  fo_Projection : M
}.

(** [*mongo.SingleResult]: the error of the command, if any, and the
    document the cursor holds, if any. *)
Record SingleResult : Type := mkSingleResult {
  sr_err : option error;
  sr_doc : option Raw
}.

(** [*mongo.Cursor]: the remaining documents, and the error the iteration
    ends with, if any. *)
Record Cursor : Type := mkCursor {
  cur_docs : list Raw;
  cur_err : option error
}.

(** What is handed to the driver's insert methods: the model itself
    (baseline collection) or the record [newRecord] built around it. *)
Inductive document (T : Type) : Type :=
| DModel (model : T)
| DRecord (r : record T).
Arguments DModel {T} _.
Arguments DRecord {T} _.

(** The calls a collection submits to the driver. *)
Inductive Call (T : Type) : Type :=
| CInsertOne (doc : document T)
| CInsertMany (docs : list (document T))
| CFindOne (filter : M)
| CFind (filter : M) (opts : FindOptions)
| CUpdateOne (filter update : M)
| CUpdateMany (filter update : M)
| CDeleteOne (filter : M)
| CDeleteMany (filter : M)
| CCountDocuments (filter : M)
| CAggregate (pipeline : option (list M)).
Arguments CInsertOne {T} _.
Arguments CInsertMany {T} _.
Arguments CFindOne {T} _.
Arguments CFind {T} _ _.
Arguments CUpdateOne {T} _ _.
Arguments CUpdateMany {T} _ _.
Arguments CDeleteOne {T} _.
Arguments CDeleteMany {T} _.
Arguments CCountDocuments {T} _.
Arguments CAggregate {T} _.

(** What a call leaves behind, in order. *)
Inductive Event (T : Type) : Type :=
| EvNow (t : Time)               (* time.Now() returned t *)
| EvNewObjectID (id : ObjectID)  (* primitive.NewObjectID() returned id *)
| EvCall (c : Call T).           (* c was submitted to the driver *)
Arguments EvNow {T} _.
Arguments EvNewObjectID {T} _.
Arguments EvCall {T} _.

(** The process environment the collection code runs in: what the n-th
    [time.Now()] and the n-th [primitive.NewObjectID()] return. *)
Class Runtime : Type := {
  wall : nat → Time;
  oid : nat → ObjectID
}.

(** The driver's [*mongo.Collection] over a store of type [S], and the
    decoding of a raw document into a [T] ([Decode(&model)]: the model as it
    is left, and the error). *)
Class Driver (S T : Type) : Type := {
  coll_InsertOne : document T → S → option error * S;
  coll_InsertMany : list (document T) → S → option error * S;
  coll_FindOne : M → S → SingleResult * S;
  coll_Find : M → FindOptions → S → (Cursor * option error) * S;
  coll_UpdateOne : M → M → S → option error * S;
  coll_UpdateMany : M → M → S → option error * S;
  coll_DeleteOne : M → S → option error * S;
  coll_DeleteMany : M → S → option error * S;
  coll_CountDocuments : M → S → (Z * option error) * S;
  coll_Aggregate : option (list M) → S → (Cursor * option error) * S;
  zero : T;
  decode : Raw → T → T * option error
}.

Record World (S T : Type) : Type := mkWorld {
  clock_reads : nat;
  oids_drawn : nat;
  store : S;
  trace : list (Event T)
}.
Arguments mkWorld {S T} _ _ _ _.
Arguments clock_reads {S T} _.
Arguments oids_drawn {S T} _.
Arguments store {S T} _.
Arguments trace {S T} _.

Inductive outcome (W A : Type) : Type :=
| Ok (a : A) (w : W)
| Panic (p : panic) (w : W).
Arguments Ok {W A} _ _.
Arguments Panic {W A} _ _.

(** The calls submitted to the driver, in order. *)
Definition calls {T} (tr : list (Event T)) : list (Call T) :=
  omap (fun e => match e with EvCall c => Some c | _ => None end) tr.

(* ===================================================================== *)
(** * The option model (collection.go, lines 90-159) *)
(* ===================================================================== *)

(** [&option{}]: the zero value of the struct. *)
Definition option_zero : option_ :=
  mkOption None None None None None None None.

(** [func (o option) findOptions() *options.FindOptions]. *)
Definition findOptions (o : option_) : FindOptions :=
  {| fo_Sort := Sort o;
     fo_Skip := Skip o;
     fo_Limit := Limit o;
     fo_Projection := Projection o |}.

(** [func bindOptions(options ...Option) *option]: the loop applies each
    mutator, in order, to the struct [opt] points to. *)
Definition bindOptions (options : list Option) : option_ :=
  fold_left (fun opt option => option opt) options option_zero.

(** The loop of [bindOptions] started from an arbitrary struct. *)
Definition run (options : list Option) : Option :=
  fun o => fold_left (fun opt option => option opt) options o.

(** Assignment to the [Update] field, [o.Update = u]. *)
Definition with_Update (o : option_) (u : M) : option_ :=
  mkOption (Filter o) u (Sort o) (Projection o) (Pipeline o) (Skip o) (Limit o).

(** The seven fields, and what a field holds. *)
Inductive field : Type :=
| FFilter | FUpdate | FSort | FProjection | FPipeline | FSkip | FLimit.

Inductive fieldval : Type :=
| FVDoc (m : M)
| FVStages (p : option (list M))
| FVInt (n : option Z).

#[export] Instance field_eq_dec : EqDecision field.
Proof. solve_decision. Defined.

Definition read (f : field) (o : option_) : fieldval :=
  match f with
  | FFilter => FVDoc (Filter o)
  | FUpdate => FVDoc (Update o)
  | FSort => FVDoc (Sort o)
  | FProjection => FVDoc (Projection o)
  | FPipeline => FVStages (Pipeline o)
  | FSkip => FVInt (Skip o)
  | FLimit => FVInt (Limit o)
  end.

(** The mutators a caller writes as [func(o *option) { o.F = v }]. *)
Definition setFilter (v : M) : Option :=
  fun o => mkOption v (Update o) (Sort o) (Projection o) (Pipeline o) (Skip o) (Limit o).
Definition setUpdateDoc (v : M) : Option :=
  fun o => with_Update o v.
Definition setSort (v : M) : Option :=
  fun o => mkOption (Filter o) (Update o) v (Projection o) (Pipeline o) (Skip o) (Limit o).
Definition setProjection (v : M) : Option :=
  fun o => mkOption (Filter o) (Update o) (Sort o) v (Pipeline o) (Skip o) (Limit o).
Definition setPipeline (v : option (list M)) : Option :=
  fun o => mkOption (Filter o) (Update o) (Sort o) (Projection o) v (Skip o) (Limit o).
Definition setSkip (v : option Z) : Option :=
  fun o => mkOption (Filter o) (Update o) (Sort o) (Projection o) (Pipeline o) v (Limit o).
Definition setLimit (v : option Z) : Option :=
  fun o => mkOption (Filter o) (Update o) (Sort o) (Projection o) (Pipeline o) (Skip o) v.

(** A mutator that appends to what is there: [o.Pipeline = append(o.Pipeline, st)]. *)
Definition appendStage (st : M) : Option :=
  fun o => setPipeline (Some (default [] (Pipeline o) ++ [st])) o.

(** Footprints.  A mutator [m] targets the fields in [fs] when it changes no
    field outside [fs] and what it leaves in the fields of [fs] is decided by
    what these fields held before. *)
Definition agree_on (fs : list field) (o1 o2 : option_) : Prop :=
  ∀ f, f ∈ fs → read f o1 = read f o2.

Definition writes_within (fs : list field) (m : Option) : Prop :=
  ∀ o f, f ∉ fs → read f (m o) = read f o.

Definition reads_within (fs : list field) (m : Option) : Prop :=
  ∀ o1 o2, agree_on fs o1 o2 → agree_on fs (m o1) (m o2).

Definition targets (fs : list field) (m : Option) : Prop :=
  writes_within fs m ∧ reads_within fs m.

(** [m] never sets field [f]. *)
Definition leaves (f : field) (m : Option) : Prop :=
  ∀ o, read f (m o) = read f o.

(** [m] overwrites field [f] with [v], whatever the field held. *)
Definition overwrites (f : field) (v : fieldval) (m : Option) : Prop :=
  ∀ o, read f (m o) = v.

(* ===================================================================== *)
(** * The collections *)
(* ===================================================================== *)

(** The monad of the effectful code: the world [W] is threaded through, and
    a panic ends the computation with the world as it was then. *)
Definition St (W A : Type) : Type := W → outcome W A.

#[export] Instance St_ret {W} : MRet (St W) := fun A a w => Ok a w.

#[export] Instance St_bind {W} : MBind (St W) := fun A B k c w =>
  match c w with
  | Ok a w' => k a w'
  | Panic p w' => Panic p w'
  end.

Definition throw {W A : Type} (p : panic) : St W A := fun w => Panic p w.

(** The collection code runs over a [World]. *)
Abbreviation Go DB T := (St (World DB T)).

Section Collection.

Context {RT : Runtime} {DB T : Type} {DRV : Driver DB T}.

#[local] Abbreviation Go := (St (World DB T)).

(** The world after one reading of the clock. *)
Definition tick (w : World DB T) : World DB T :=
  mkWorld (S (clock_reads w)) (oids_drawn w) (store w)
          (trace w ++ [EvNow (wall (clock_reads w))]).

(** [time.Now()]. *)
Definition time_Now : Go Time := fun w => Ok (wall (clock_reads w)) (tick w).

(** [primitive.NewObjectID()]. *)
Definition primitive_NewObjectID : Go ObjectID := fun w =>
  let id := oid (oids_drawn w) in
  Ok id (mkWorld (clock_reads w) (S (oids_drawn w)) (store w) (trace w ++ [EvNewObjectID id])).

(** A method call on the embedded [*mongo.Collection]. *)
Definition submit {R : Type} (c : Call T) (run : DB → R * DB) : Go R := fun w =>
  let '(r, db) := run (store w) in
  Ok r (mkWorld (clock_reads w) (oids_drawn w) db (trace w ++ [EvCall c])).

(** [m[k] = v]: panics on the nil map. *)
Definition M_assign (m : M) (k : string) (v : value) : Go M :=
  match m with
  | None => throw PanicNilMap
  | Some d => mret (Some (<[k := v]> d))
  end.

(** [val.(bson.M)]: the unchecked type assertion. *)
Definition assert_M (val : value) : Go M :=
  match val with
  | VM m => mret m
  | _ => throw PanicTypeAssertion
  end.

(** [func newRecord(v any) any]: the calls of the composite literal are
    made in the order they are written. *)
Definition newRecord (v : T) : Go (record T) :=
  id ← primitive_NewObjectID;
  created ← time_Now;
  updated ← time_Now;
  mret (mkRecord (mkEntity id created updated None) v).

(** [func (o *option) setUpdate()].  Go maps are references: the last line
    of the source writes into the map that [o.Update["$set"]] holds; here
    the map so written is put back under ["$set"]. *)
Definition setUpdate (o : option_) : Go option_ :=
  let o := match Update o with
           | None => with_Update o (Some ∅)
           | Some _ => o
           end in
  match get (Update o) "$set" with
  | None =>
      t ← time_Now;
      u ← M_assign (Update o) "$set" (VM (Some {[ "updated_at" := VTime t ]}));
      mret (with_Update o u)
  | Some val =>
      m ← assert_M val;
      t ← time_Now;
      m' ← M_assign m "updated_at" (VTime t);
      u ← M_assign (Update o) "$set" (VM m');
      mret (with_Update o u)
  end.

(** [func (o *option) setSoftDelete()]. *)
Definition setSoftDelete (o : option_) : Go option_ :=
  let o := match Update o with
           | None => with_Update o (Some ∅)
           | Some _ => o
           end in
  t ← time_Now;
  u ← M_assign (Update o) "$set" (VM (Some {[ "deleted_at" := VTime t ]}));
  mret (with_Update o u).

(** [SingleResult.Decode(&model)]: the error of the command if there is
    one, [ErrNoDocuments] if the cursor holds no document, the decoding of
    the document otherwise. *)
Definition SingleResult_Decode (sr : SingleResult) (model : T) : T * option error :=
  match sr_err sr with
  | Some e => (model, Some e)
  | None =>
      match sr_doc sr with
      | None => (model, Some ErrNoDocuments)
      | Some d => decode d model
      end
  end.

(** [Cursor.All(ctx, &models)]. *)
Fixpoint decode_all (docs : list Raw) : list T * option error :=
  match docs with
  | [] => ([], None)
  | d :: rest =>
      match decode d zero with
      | (_, Some e) => ([], Some e)
      | (v, None) =>
          match decode_all rest with
          | (_, Some e) => ([], Some e)
          | (vs, None) => (v :: vs, None)
          end
      end
  end.

Definition Cursor_All (c : Cursor) : list T * option error :=
  match decode_all (cur_docs c) with
  | (_, Some e) => ([], Some e)
  | (vs, None) =>
      match cur_err c with
      | Some e => ([], Some e)
      | None => (vs, None)
      end
  end.

(** ** The envelope-aware collection (collection.go, lines 161-280) *)

(** [InsertOne]. *)
Definition InsertOne (model : T) : Go (option error) :=
  r ← newRecord model;
  submit (CInsertOne (DRecord r)) (coll_InsertOne (DRecord r)).

(** The loop of [InsertMany]: [docs[i] = newRecord(model)]. *)
Fixpoint newRecords (models : list T) : Go (list (document T)) :=
  match models with
  | [] => mret []
  | model :: rest =>
      r ← newRecord model;
      docs ← newRecords rest;
      mret (DRecord r :: docs)
  end.

(** [InsertMany]. *)
Definition InsertMany (models : list T) : Go (option error) :=
  docs ← newRecords models;
  submit (CInsertMany docs) (coll_InsertMany docs).

(** [FindOne]: the pointer returned is [&model], never nil. *)
Definition FindOne (options : list Option) : Go (T * option error) :=
  let opt := bindOptions options in
  sr ← submit (CFindOne (Filter opt)) (coll_FindOne (Filter opt));
  mret (SingleResult_Decode sr zero).

(** [FindMany]. *)
Definition FindMany (options : list Option) : Go (list T * option error) :=
  let opt := bindOptions options in
  '(cursor, err) ← submit (CFind (Filter opt) (findOptions opt))
                          (coll_Find (Filter opt) (findOptions opt));
  match err with
  | Some e => mret ([], Some e)
  | None =>
      match Cursor_All cursor with
      | (_, Some e) => mret ([], Some e)
      | (models, None) => mret (models, None)
      end
  end.

(** [UpdateOne]. *)
Definition UpdateOne (options : list Option) : Go (option error) :=
  let opt := bindOptions options in
  opt ← setUpdate opt;
  submit (CUpdateOne (Filter opt) (Update opt)) (coll_UpdateOne (Filter opt) (Update opt)).

(** [UpdateMany]. *)
Definition UpdateMany (options : list Option) : Go (option error) :=
  let opt := bindOptions options in
  opt ← setUpdate opt;
  submit (CUpdateMany (Filter opt) (Update opt)) (coll_UpdateMany (Filter opt) (Update opt)).

(** [DeleteOne]. *)
Definition DeleteOne (options : list Option) : Go (option error) :=
  let opt := bindOptions options in
  submit (CDeleteOne (Filter opt)) (coll_DeleteOne (Filter opt)).

(** [DeleteMany]. *)
Definition DeleteMany (options : list Option) : Go (option error) :=
  let opt := bindOptions options in
  submit (CDeleteMany (Filter opt)) (coll_DeleteMany (Filter opt)).

(** [SoftDeleteOne]. *)
Definition SoftDeleteOne (options : list Option) : Go (option error) :=
  let opt := bindOptions options in
  opt ← setSoftDelete opt;
  submit (CUpdateOne (Filter opt) (Update opt)) (coll_UpdateOne (Filter opt) (Update opt)).

(** [SoftDeleteMany]. *)
Definition SoftDeleteMany (options : list Option) : Go (option error) :=
  let opt := bindOptions options in
  opt ← setSoftDelete opt;
  submit (CUpdateMany (Filter opt) (Update opt)) (coll_UpdateMany (Filter opt) (Update opt)).

(** [Count]. *)
Definition Count (options : list Option) : Go (Z * option error) :=
  let opt := bindOptions options in
  submit (CCountDocuments (Filter opt)) (coll_CountDocuments (Filter opt)).

(** [Aggregate]. *)
Definition Aggregate (options : list Option) : Go (list T * option error) :=
  let opt := bindOptions options in
  '(cursor, err) ← submit (CAggregate (Pipeline opt)) (coll_Aggregate (Pipeline opt));
  match err with
  | Some e => mret ([], Some e)
  | None =>
      match Cursor_All cursor with
      | (_, Some e) => mret ([], Some e)
      | (models, None) => mret (models, None)
      end
  end.

(** The observable behaviour of a stamped write: the call returns, having
    read the clock exactly once and then submitted exactly one call to the
    driver, whose filter is the bound option's and whose update document is
    [u']. *)
Definition stamps_then_submits
    (op : list Option → Go (option error)) (method : M → M → Call T)
    (options : list Option) (w : World DB T) (u' : gmap string value) : Prop :=
  ∃ err w',
    op options w = Ok err w' ∧
    clock_reads w' = S (clock_reads w) ∧
    trace w' = trace w ++ [EvNow (wall (clock_reads w));
                           EvCall (method (Filter (bindOptions options)) (Some u'))].

End Collection.

(** ** The baseline collection (the envelope-free implementation)

    The same interface over the same option struct (there the struct is
    exported as [Option] and the mutator type is [SetOption]): models are
    handed to the driver as they are, and updates are submitted unstamped. *)

Module baseline.
Section Collection.

Context {DB T : Type} {DRV : Driver DB T}.

#[local] Abbreviation Go := (St (World DB T)).

Definition InsertOne (model : T) : Go (option error) :=
  submit (CInsertOne (DModel model)) (coll_InsertOne (DModel model)).

Definition InsertMany (models : list T) : Go (option error) :=
  let docs := map DModel models in
  submit (CInsertMany docs) (coll_InsertMany docs).

Definition FindOne (options : list Option) : Go (T * option error) :=
  let opt := bindOptions options in
  sr ← submit (CFindOne (Filter opt)) (coll_FindOne (Filter opt));
  mret (SingleResult_Decode sr zero).

Definition FindMany (options : list Option) : Go (list T * option error) :=
  let opt := bindOptions options in
  '(cursor, err) ← submit (CFind (Filter opt) (findOptions opt))
                          (coll_Find (Filter opt) (findOptions opt));
  match err with
  | Some e => mret ([], Some e)
  | None =>
      match Cursor_All cursor with
      | (_, Some e) => mret ([], Some e)
      | (models, None) => mret (models, None)
      end
  end.

Definition UpdateOne (options : list Option) : Go (option error) :=
  let opt := bindOptions options in
  submit (CUpdateOne (Filter opt) (Update opt)) (coll_UpdateOne (Filter opt) (Update opt)).

Definition UpdateMany (options : list Option) : Go (option error) :=
  let opt := bindOptions options in
  submit (CUpdateMany (Filter opt) (Update opt)) (coll_UpdateMany (Filter opt) (Update opt)).

Definition DeleteOne (options : list Option) : Go (option error) :=
  let opt := bindOptions options in
  submit (CDeleteOne (Filter opt)) (coll_DeleteOne (Filter opt)).

Definition DeleteMany (options : list Option) : Go (option error) :=
  let opt := bindOptions options in
  submit (CDeleteMany (Filter opt)) (coll_DeleteMany (Filter opt)).

Definition Count (options : list Option) : Go (Z * option error) :=
  let opt := bindOptions options in
  submit (CCountDocuments (Filter opt)) (coll_CountDocuments (Filter opt)).

Definition Aggregate (options : list Option) : Go (list T * option error) :=
  let opt := bindOptions options in
  '(cursor, err) ← submit (CAggregate (Pipeline opt)) (coll_Aggregate (Pipeline opt));
  match err with
  | Some e => mret ([], Some e)
  | None =>
      match Cursor_All cursor with
      | (_, Some e) => mret ([], Some e)
      | (models, None) => mret (models, None)
      end
  end.

End Collection.
End baseline.

(* ===================================================================== *)
(** * The document shape of a record (struct tags, collection.go lines 13-41) *)
(* ===================================================================== *)

(** A struct field as its [bson] tag presents it to the encoder: written
    under a key, or inline, its own fields standing at the level of the
    struct that holds it. *)
Inductive tagged : Type :=
| Keyed (key : string) (v : value)
| Inlined (fields : list tagged).

Fixpoint flatten (f : tagged) : Raw :=
  match f with
  | Keyed k v => [(k, v)]
  | Inlined fs =>
      (fix flatten_all (l : list tagged) : Raw :=
         match l with
         | [] => []
         | f' :: l' => flatten f' ++ flatten_all l'
         end) fs
  end.

Definition marshal (fs : list tagged) : Raw := flatten (Inlined fs).

(** The fields of a caller's value. *)
Class Struct (T : Type) := fields : T → list tagged.

(** [Entity], with the tags of the source. *)
Definition Entity_fields (e : Entity) : list tagged :=
  [ Keyed "_id" (VOid (ID e));
    Keyed "created_at" (VTime (CreatedAt e));
    Keyed "update_at" (VTime (UpdatedAt e));
    Keyed "deleted_at" (match DeletedAt e with
                        | Some t => VTime t
                        | None => VNil
                        end) ].

#[export] Instance Entity_Struct : Struct Entity := Entity_fields.

(** The struct of [newRecord]: [E] inline, [V] inline. *)
Definition record_fields {T} `{Struct T} (r : record T) : list tagged :=
  [ Inlined (Entity_fields (E r)); Inlined (fields (V r)) ].

Definition keys (d : Raw) : list string := map fst d.

(* ===================================================================== *)
(** * Configuration and connection (mgo.go) *)
(* ===================================================================== *)

Record config : Type := mkConfig {
  Addrs : string;
  Name : string;
  AuthSource : string;
  User : string;
  Password : string
}.

Inductive config_field : Type :=
| CAddrs | CName | CAuthSource | CUser | CPassword.

Definition config_set (f : config_field) (v : string) (c : config) : config :=
  match f with
  | CAddrs => mkConfig v (Name c) (AuthSource c) (User c) (Password c)
  | CName => mkConfig (Addrs c) v (AuthSource c) (User c) (Password c)
  | CAuthSource => mkConfig (Addrs c) (Name c) v (User c) (Password c)
  | CUser => mkConfig (Addrs c) (Name c) (AuthSource c) v (Password c)
  | CPassword => mkConfig (Addrs c) (Name c) (AuthSource c) (User c) v
  end.

Definition config_get (f : config_field) (c : config) : string :=
  match f with
  | CAddrs => Addrs c
  | CName => Name c
  | CAuthSource => AuthSource c
  | CUser => User c
  | CPassword => Password c
  end.

(** A struct field as [envconfig] sees it: its Go name and the values of the
    tags [envconfig], [required] and [default] (empty when the tag is not
    written). *)
Record struct_field : Type := mkField {
  sf_field : config_field;
  sf_name : string;
  tag_envconfig : string;
  tag_required : string;
  tag_default : string
}.

(** The fields of [config] with the tags of the source: each carries an
    [envconfig] tag and nothing else. *)
Definition config_struct : list struct_field :=
  [ mkField CAddrs "Addrs" "ADDRS" "" "";
    mkField CName "Name" "NAME" "" "";
    mkField CAuthSource "AuthSource" "AUTH_SOURCE" "" "";
    mkField CUser "User" "USER" "" "";
    mkField CPassword "Password" "PASSWORD" "" "" ].

(** The process environment, as [os.LookupEnv] reads it. *)
Abbreviation Environ := (gmap string string).

Module strings.

Definition upper (c : ascii) : ascii :=
  let n := nat_of_ascii c in
  if ((97 <=? n) && (n <=? 122))%nat then ascii_of_nat (n - 32) else c.

Fixpoint ToUpper (s : string) : string :=
  match s with
  | EmptyString => EmptyString
  | String c s' => String (upper c) (ToUpper s')
  end.

(** [strings.Split(s, sep)] for a separator of one character: the pieces
    between the separators, a single piece [s] when there is none. *)
Fixpoint split_from (sep : ascii) (piece s : string) : list string :=
  match s with
  | EmptyString => [piece]
  | String c s' =>
      if Ascii.eqb c sep then piece :: split_from sep EmptyString s'
      else split_from sep (piece ++ String c EmptyString)%string s'
  end.

Definition Split (s : string) (sep : ascii) : list string :=
  split_from sep EmptyString s.

End strings.

Module envconfig.

Record varInfo : Type := mkVarInfo {
  vi_field : config_field;
  Key : string;
  Alt : string;
  Required : string;
  Default : string
}.

(** [isTrue]: [strconv.ParseBool], false on anything it does not parse. *)
Definition isTrue (s : string) : bool :=
  bool_decide (s ∈ ["1"; "t"; "T"; "TRUE"; "true"; "True"]).

(** [gatherInfo]: the key is the upper-cased [envconfig] tag (the field name
    without one), prefixed; the tag alone is the alternative key. *)
Definition gatherInfo (prefix : string) (spec : list struct_field) : list varInfo :=
  map (fun sf =>
         let alt := strings.ToUpper (tag_envconfig sf) in
         let key := if decide (alt = "") then sf_name sf else alt in
         let key := if decide (prefix = "") then key
                    else (prefix ++ "_" ++ key)%string in
         mkVarInfo (sf_field sf) (strings.ToUpper key) alt
                   (tag_required sf) (tag_default sf))
      spec.

(** The loop of [Process]: a variable that is not set and has no default is
    an error when its field is tagged as required, and is skipped, the field
    keeping its value, otherwise.  All fields of [config] are strings, whose
    [processField] cannot fail. *)
Fixpoint process_infos (env : Environ) (infos : list varInfo) (c : config)
  : string + config :=
  match infos with
  | [] => inr c
  | info :: rest =>
      let found :=
        match env !! Key info with
        | Some v => Some v
        | None => if decide (Alt info = "") then None else env !! Alt info
        end in
      let def := Default info in
      match found with
      | Some v => process_infos env rest (config_set (vi_field info) v c)
      | None =>
          if decide (def = "") then
            if isTrue (Required info) then
              inl ("required key " ++
                   (if decide (Alt info = "") then Key info else Alt info) ++
                   " missing value")%string
            else process_infos env rest c
          else process_infos env rest (config_set (vi_field info) def c)
      end
  end.

Definition Process (prefix : string) (env : Environ) (c : config) : string + config :=
  process_infos env (gatherInfo prefix config_struct) c.

End envconfig.

(** The name a field is read under, and the value the environment holds for
    it: the prefixed variable, the plain one when that is not set. *)
Definition env_name (f : config_field) : string :=
  match f with
  | CAddrs => "ADDRS"
  | CName => "NAME"
  | CAuthSource => "AUTH_SOURCE"
  | CUser => "USER"
  | CPassword => "PASSWORD"
  end.

Definition env_value (env : Environ) (f : config_field) : option string :=
  match env !! ("MGO_" ++ env_name f)%string with
  | Some v => Some v
  | None => env !! env_name f
  end.

(** The connection side of the driver. *)
Record Credential : Type := mkCredential {
  cr_AuthSource : string;
  cr_Username : string;
  cr_Password : string
}.

Record ClientOptions : Type := mkClientOptions {
  Hosts : list string;
  ConnectTimeout : Z;
  SocketTimeout : Z;
  Auth : Credential
}.

Inductive NetEvent : Type :=
| NetConnect (opts : ClientOptions)   (* mongo.Connect(ctx, opts) *)
| NetPing.                            (* c.Ping(ctx, nil) *)

Class Network : Type := {
  mongo_Connect : ClientOptions → option error;
  client_Ping : ClientOptions → option error
}.

Record client : Type := mkClient {
  Client : ClientOptions;
  dbName : string
}.

Definition Second : Z := 1000000000.

Section Connection.

Context {NET : Network}.

(** [func readConfig() *config]: [MustProcess] panics on the error of
    [Process]. *)
Definition readConfig (env : Environ) : St (list NetEvent) config :=
  match envconfig.Process "MGO" env (mkConfig "" "" "" "" "") with
  | inr cfg => mret cfg
  | inl msg => throw (PanicError msg)
  end.

Definition attempt (ev : NetEvent) (answer : option error) : St (list NetEvent) (option error) :=
  fun tr => Ok answer (tr ++ [ev]).

(** [func connect() (c *client, err error)]. *)
Definition connect (env : Environ) : St (list NetEvent) (option client * option error) :=
  cfg ← readConfig env;
  let opts :=
    mkClientOptions (strings.Split (Addrs cfg) ",") (5 * Second) (5 * Second)
                    (mkCredential (AuthSource cfg) (User cfg) (Password cfg)) in
  err ← attempt (NetConnect opts) (mongo_Connect opts);
  match err with
  | Some e => mret (None, Some e)
  | None =>
      err ← attempt NetPing (client_Ping opts);
      match err with
      | Some e => mret (None, Some e)
      | None => mret (Some (mkClient opts (Name cfg)), None)
      end
  end.

End Connection.

(* ===================================================================== *)
(** * A runtime, a store and a network to run the code on *)
(* ===================================================================== *)

Module sim.

(** A clock that advances by one nanosecond between two readings, and
    identifiers drawn from a counter. *)
Definition ticking : Runtime :=
  {| wall := fun n => 1700000000000000000 + Z.of_nat n;
     oid := fun n => 2 ^ 64 + Z.of_nat n |}.

(** A clock whose readings all coincide. *)
Definition frozen : Runtime :=
  {| wall := fun _ => 1700000000000000000;
     oid := fun n => 2 ^ 64 + Z.of_nat n |}.

(** Equality of the scalar values a filter may hold. *)
Definition scalar_eqb (v1 v2 : value) : bool :=
  match v1, v2 with
  | VNil, VNil => true
  | VBool a, VBool b => Bool.eqb a b
  | VInt a, VInt b => a =? b
  | VStr a, VStr b => String.eqb a b
  | VTime a, VTime b => a =? b
  | VOid a, VOid b => a =? b
  | _, _ => false
  end.

Fixpoint lookup_raw (k : string) (d : Raw) : option value :=
  match d with
  | [] => None
  | (k', v) :: d' => if String.eqb k k' then Some v else lookup_raw k d'
  end.

(** A document matches a filter when it holds every entry of the filter;
    the nil and the empty filter match everything. *)
Definition matches (filter : M) (d : Raw) : bool :=
  match filter with
  | None => true
  | Some f =>
      forallb (fun '(k, v) => match lookup_raw k d with
                               | Some v' => scalar_eqb v v'
                               | None => false
                               end)
              (map_to_list f)
  end.

#[export] Instance Raw_Struct : Struct Raw := map (fun '(k, v) => Keyed k v).

Definition encode (doc : document Raw) : Raw :=
  match doc with
  | DModel d => d
  | DRecord r => marshal (record_fields r)
  end.

Fixpoint delete_first (f : M) (db : list Raw) : list Raw :=
  match db with
  | [] => []
  | d :: db' => if matches f d then db' else d :: delete_first f db'
  end.

(** An in-memory collection of raw documents.  Updates leave it as it is;
    nothing ever fails in it. *)
Definition memory : Driver (list Raw) Raw :=
  {| coll_InsertOne := fun doc db => (None, db ++ [encode doc]);
     coll_InsertMany := fun docs db => (None, db ++ map encode docs);
     coll_FindOne := fun f db =>
       (mkSingleResult None (head (filter (fun d => matches f d = true) db)), db);
     coll_Find := fun f _ db =>
       (mkCursor (filter (fun d => matches f d = true) db) None, None, db);
     coll_UpdateOne := fun _ _ db => (None, db);
     coll_UpdateMany := fun _ _ db => (None, db);
     coll_DeleteOne := fun f db => (None, delete_first f db);
     coll_DeleteMany := fun f db =>
       (None, filter (fun d => matches f d = false) db);
     coll_CountDocuments := fun f db =>
       (Z.of_nat (length (filter (fun d => matches f d = true) db)), None, db);
     coll_Aggregate := fun _ db => (mkCursor db None, None, db);
     zero := [];
     decode := fun d _ => (d, None) |}.

Definition world0 (db : list Raw) : World (list Raw) Raw := mkWorld 0 0 db [].

(** A network on which no server answers. *)
Definition unreachable : Network :=
  {| mongo_Connect := fun _ => None;
     client_Ping := fun _ => Some (ErrOther "server selection timeout") |}.

(** An environment in which every value but ADDRS is set. *)
Definition env_without_ADDRS : Environ :=
  {[ "MGO_NAME" := "app"; "MGO_AUTH_SOURCE" := "admin";
     "MGO_USER" := "svc"; "MGO_PASSWORD" := "secret" ]}.

End sim.

(* ===================================================================== *)
(** * The rest of mgo.go, and vocabulary for the properties *)
(* ===================================================================== *)

(** [*mongo.Database]: the client it belongs to and its name. *)
Record Database : Type := mkDatabase {
  db_client : client;
  db_name : string
}.

(** [func (c *client) Database() *mongo.Database]. *)
Definition client_Database (c : client) : Database := mkDatabase c (dbName c).

(** What running the cleanup of [New] leaves behind. *)
Inductive CloseEvent : Type :=
| Disconnect (c : client) (timeout : Z).   (* c.Disconnect(ctx), ctx of 5s *)

(** The closure [New] returns: it disconnects under a timeout of five
    seconds and drops the error of [Disconnect]. *)
Definition cleanup (c : client) : St (list CloseEvent) unit :=
  fun tr => Ok tt (tr ++ [Disconnect c (5 * Second)]).

Section New.

Context {NET : Network}.

(** [func New() (db *mongo.Database, cleanup func(), err error)].  The
    method call [c.Database()] on a nil [*client] would dereference it. *)
Definition New (env : Environ)
  : St (list NetEvent)
       (option Database * option (St (list CloseEvent) unit) * option error) :=
  '(c, err) ← connect env;
  match err with
  | Some e => mret (None, None, Some e)
  | None =>
      match c with
      | Some c => mret (Some (client_Database c), Some (cleanup c), None)
      | None => throw (PanicError "invalid memory address or nil pointer dereference")
      end
  end.

End New.

(** [strings.Join(elems, sep)]. *)
Fixpoint strings_Join (elems : list string) (sep : string) : string :=
  match elems with
  | [] => ""
  | [e] => e
  | e :: rest => (e ++ sep ++ strings_Join rest sep)%string
  end.

(** The character [c] occurs in [s]. *)
Fixpoint occurs (c : ascii) (s : string) : bool :=
  match s with
  | EmptyString => false
  | String c' s' => Ascii.eqb c' c || occurs c s'
  end.

(** The keys under which [Entity] is written. *)
Definition envelope_keys : list string :=
  ["_id"; "created_at"; "update_at"; "deleted_at"].

(** The identifiers of the records among the documents of an insert. *)
Definition record_ids {T} (docs : list (document T)) : list ObjectID :=
  omap (fun doc => match doc with
                   | DRecord r => Some (ID (E r))
                   | DModel _ => None
                   end) docs.

(** The document the caller left under [$set], the empty one when there is
    none. *)
Definition caller_set (u : M) : gmap string value :=
  match get u "$set" with
  | Some (VM (Some d)) => d
  | _ => ∅
  end.

(** The bound option lets [setUpdate] run to its end: there is no [$set]
    entry, or it holds a map that is not nil. *)
Definition stampable (u : M) : Prop :=
  get u "$set" = None ∨ ∃ d, get u "$set" = Some (VM (Some d)).

Section Records.

Context {RT : Runtime} {DB T : Type}.

(** The record the [i]-th model of an insert receives in world [w]: the
    [i]-th identifier from now, and the clock readings number [2i] and
    [2i+1] from now. *)
Definition nth_record (w : World DB T) (i : nat) (v : T) : document T :=
  DRecord (mkRecord (mkEntity (oid (oids_drawn w + i)%nat)
                              (wall (clock_reads w + 2 * i)%nat)
                              (wall (clock_reads w + 2 * i + 1)%nat)
                              None) v).

End Records.

(* ===================================================================== *)
(** * Properties of the option model *)
(* ===================================================================== *)

Section OptionFacts.

Implicit Types (o : option_) (m : Option) (ms : list Option) (f : field).

Lemma option_ext o1 o2 : (∀ f, read f o1 = read f o2) → o1 = o2.
Proof.
  intros Hrd. destruct o1, o2.
  pose proof (Hrd FFilter) as H1. pose proof (Hrd FUpdate) as H2.
  pose proof (Hrd FSort) as H3. pose proof (Hrd FProjection) as H4.
  pose proof (Hrd FPipeline) as H5. pose proof (Hrd FSkip) as H6.
  pose proof (Hrd FLimit) as H7. simpl in *. congruence.
Qed.

Lemma bindOptions_run ms : bindOptions ms = run ms option_zero.
Proof. reflexivity. Qed.

Lemma run_app ms1 ms2 o : run (ms1 ++ ms2) o = run ms2 (run ms1 o).
Proof. unfold run. apply fold_left_app. Qed.

Lemma bindOptions_snoc ms m : bindOptions (ms ++ [m]) = m (bindOptions ms).
Proof. rewrite !bindOptions_run, run_app. reflexivity. Qed.

Lemma writes_within_run fs ms :
  Forall (writes_within fs) ms → writes_within fs (run ms).
Proof.
  induction 1 as [|m ms Hm _ IH]; intros o f Hf; [reflexivity|].
  change (run (m :: ms) o) with (run ms (m o)).
  rewrite IH by assumption. by apply Hm.
Qed.

Lemma reads_within_run fs ms :
  Forall (reads_within fs) ms → reads_within fs (run ms).
Proof.
  induction 1 as [|m ms Hm _ IH]; intros o1 o2 Hag; [exact Hag|].
  change (agree_on fs (run ms (m o1)) (run ms (m o2))).
  apply IH, Hm, Hag.
Qed.

Lemma targets_run fs ms : Forall (targets fs) ms → targets fs (run ms).
Proof.
  intros Hall. split.
  - apply writes_within_run. eapply Forall_impl; [exact Hall|]. by intros m [? ?].
  - apply reads_within_run. eapply Forall_impl; [exact Hall|]. by intros m [? ?].
Qed.

(** Mutators with disjoint footprints commute. *)
Lemma targets_commute fs1 fs2 m1 m2 o :
  (∀ f, f ∈ fs1 → f ∉ fs2) →
  targets fs1 m1 → targets fs2 m2 →
  m2 (m1 o) = m1 (m2 o).
Proof.
  intros Hdisj [Hw1 Hr1] [Hw2 Hr2]. apply option_ext. intros f.
  assert (agree_on fs1 (m2 o) o) as Hag1.
  { intros g Hg. apply Hw2. by apply Hdisj. }
  assert (agree_on fs2 (m1 o) o) as Hag2.
  { intros g Hg. apply Hw1. intros Hg1. by apply (Hdisj g). }
  destruct (decide (f ∈ fs1)) as [Hin1|Hout1].
  - rewrite Hw2 by (by apply Hdisj). symmetry. by apply Hr1.
  - rewrite (Hw1 (m2 o)) by assumption.
    destruct (decide (f ∈ fs2)) as [Hin2|Hout2].
    + by apply Hr2.
    + rewrite (Hw2 (m1 o)), (Hw2 o), Hw1 by assumption. reflexivity.
Qed.

Lemma overwrites_last f v m ms : overwrites f v m → read f (bindOptions (ms ++ [m])) = v.
Proof. intros Hm. rewrite bindOptions_snoc. apply Hm. Qed.

(** The plain setters: footprint and value. *)
Lemma setFilter_targets v : targets [FFilter] (setFilter v).
Proof.
  split.
  - intros o f Hf. destruct f; try reflexivity. exfalso. apply Hf. by left.
  - intros o1 o2 _ f Hf. apply list_elem_of_singleton in Hf as ->. reflexivity.
Qed.

Lemma setSkip_targets v : targets [FSkip] (setSkip v).
Proof.
  split.
  - intros o f Hf. destruct f; try reflexivity. exfalso. apply Hf. by left.
  - intros o1 o2 _ f Hf. apply list_elem_of_singleton in Hf as ->. reflexivity.
Qed.

Lemma setSort_targets v : targets [FSort] (setSort v).
Proof.
  split.
  - intros o f Hf. destruct f; try reflexivity. exfalso. apply Hf. by left.
  - intros o1 o2 _ f Hf. apply list_elem_of_singleton in Hf as ->. reflexivity.
Qed.

Lemma appendStage_targets st : targets [FPipeline] (appendStage st).
Proof.
  split.
  - intros o f Hf. destruct f; try reflexivity. exfalso. apply Hf. by left.
  - intros o1 o2 Hag f Hf. apply list_elem_of_singleton in Hf as ->.
    assert (read FPipeline o1 = read FPipeline o2) as Heq by (apply Hag; by left).
    simpl in *. congruence.
Qed.

Lemma setFilter_overwrites v : overwrites FFilter (FVDoc v) (setFilter v).
Proof. intros o. reflexivity. Qed.

End OptionFacts.

(** C4. Binding starts from the zero-valued option, whose seven fields are
    all nil, and applies the mutators one after the other in the order given.
    Hence two sequences of mutators that target disjoint sets of fields bind
    to the same option in either order, and of two mutators that overwrite
    the same field the one applied last decides what the field holds: nothing
    of the earlier value is kept. *)
Theorem bindOptions_in_order :
  (bindOptions [] = option_zero ∧
   ∀ ms m, bindOptions (ms ++ [m]) = m (bindOptions ms)) ∧
  (Filter option_zero = None ∧ Update option_zero = None ∧
   Sort option_zero = None ∧ Projection option_zero = None ∧
   Pipeline option_zero = None ∧ Skip option_zero = None ∧
   Limit option_zero = None) ∧
  (∀ fs1 fs2 ms1 ms2,
     (∀ f, f ∈ fs1 → f ∉ fs2) →
     Forall (targets fs1) ms1 → Forall (targets fs2) ms2 →
     bindOptions (ms1 ++ ms2) = bindOptions (ms2 ++ ms1)) ∧
  (∀ f v1 v2 m1 m2 ms,
     overwrites f v1 m1 → overwrites f v2 m2 →
     read f (bindOptions (ms ++ [m1; m2])) = v2 ∧
     read f (bindOptions (ms ++ [m1; m2])) = read f (bindOptions (ms ++ [m2]))).
Proof.
  split; [split; [reflexivity | apply bindOptions_snoc]|].
  split; [by repeat split|].
  split.
  - intros fs1 fs2 ms1 ms2 Hdisj H1 H2.
    rewrite !bindOptions_run, !run_app.
    apply (targets_commute fs1 fs2 (run ms1) (run ms2));
      [exact Hdisj | by apply targets_run | by apply targets_run].
  - intros f v1 v2 m1 m2 ms _ H2.
    change (ms ++ [m1; m2]) with (ms ++ [m1] ++ [m2]).
    rewrite app_assoc.
    rewrite (overwrites_last f v2 m2 (ms ++ [m1])) by assumption.
    rewrite (overwrites_last f v2 m2 ms) by assumption. by split.
Qed.

(** C4, on a filter and a page offset: bound in either order they give the
    same option; and the second of two filters is the one that is kept. *)
Lemma bindOptions_in_order_witness :
  bindOptions ([setFilter (Some {[ "name" := VStr "a" ]})] ++ [setSkip (Some 3)])
  = bindOptions ([setSkip (Some 3)] ++ [setFilter (Some {[ "name" := VStr "a" ]})])
  ∧ read FFilter (bindOptions ([] ++ [setFilter (Some {[ "name" := VStr "a" ]});
                                       setFilter (Some {[ "age" := VInt 7 ]})]))
    = FVDoc (Some {[ "age" := VInt 7 ]}).
Proof.
  split.
  - apply (proj1 (proj2 (proj2 bindOptions_in_order)) [FFilter] [FSkip]).
    + intros f Hf. apply list_elem_of_singleton in Hf as ->.
      intros Hin. apply list_elem_of_singleton in Hin. discriminate.
    + constructor; [apply setFilter_targets | constructor].
    + constructor; [apply setSkip_targets | constructor].
  - apply (proj2 (proj2 (proj2 bindOptions_in_order))
             FFilter (FVDoc (Some {[ "name" := VStr "a" ]}))).
    + apply setFilter_overwrites.
    + apply setFilter_overwrites.
Defined.

Lemma leaves_run f ms o : Forall (leaves f) ms → read f (run ms o) = read f o.
Proof.
  intros Hall. revert o. induction Hall as [|m ms Hm _ IH]; intros o; [reflexivity|].
  change (run (m :: ms) o) with (run ms (m o)). by rewrite IH.
Qed.

Lemma setFilter_leaves v f : f ≠ FFilter → leaves f (setFilter v).
Proof. intros Hf o. by destruct f. Qed.

Lemma setSort_leaves v f : f ≠ FSort → leaves f (setSort v).
Proof. intros Hf o. by destruct f. Qed.

Lemma setProjection_leaves v f : f ≠ FProjection → leaves f (setProjection v).
Proof. intros Hf o. by destruct f. Qed.

Lemma setSkip_leaves v f : f ≠ FSkip → leaves f (setSkip v).
Proof. intros Hf o. by destruct f. Qed.

Lemma setLimit_leaves v f : f ≠ FLimit → leaves f (setLimit v).
Proof. intros Hf o. by destruct f. Qed.

Create HintDb mgo.
#[export] Hint Resolve setFilter_leaves setSort_leaves setProjection_leaves
  setSkip_leaves setLimit_leaves : mgo.
#[export] Hint Extern 1 (_ ≠ _) => discriminate : mgo.
#[export] Hint Constructors Forall : mgo.

(** A mutator that appends is not an overwriting one: two of them leave
    both stages in the pipeline. *)
Example appendStage_accumulates :
  Pipeline (bindOptions [appendStage (Some {[ "$match" := VM (Some {[ "name" := VStr "a" ]}) ]});
                         appendStage (Some {[ "$limit" := VInt 2 ]})])
  = Some [Some {[ "$match" := VM (Some {[ "name" := VStr "a" ]}) ]};
          Some {[ "$limit" := VInt 2 ]}].
Proof. reflexivity. Qed.

(* ===================================================================== *)
(** * Properties of the find operations *)
(* ===================================================================== *)

Section FindFacts.

Context {DB T : Type} {DRV : Driver DB T}.

Implicit Types (w : World DB T) (ms : list Option).

(** What [FindOne] does, in one equation. *)
Lemma FindOne_unfold ms w :
  FindOne ms w =
  Ok (SingleResult_Decode (coll_FindOne (Filter (bindOptions ms)) (store w)).1 zero)
     (mkWorld (clock_reads w) (oids_drawn w)
              (coll_FindOne (Filter (bindOptions ms)) (store w)).2
              (trace w ++ [EvCall (CFindOne (Filter (bindOptions ms)))])).
Proof.
  unfold FindOne, mbind, St_bind, submit, mret, St_ret.
  by destruct (coll_FindOne _ _).
Qed.

(** The baseline [FindOne] is the same code. *)
Lemma baseline_FindOne_unfold ms w :
  baseline.FindOne ms w =
  Ok (SingleResult_Decode (coll_FindOne (Filter (bindOptions ms)) (store w)).1 zero)
     (mkWorld (clock_reads w) (oids_drawn w)
              (coll_FindOne (Filter (bindOptions ms)) (store w)).2
              (trace w ++ [EvCall (CFindOne (Filter (bindOptions ms)))])).
Proof. exact (FindOne_unfold ms w). Qed.

Lemma FindMany_trace ms w :
  ∃ res w', FindMany ms w = Ok res w' ∧
    trace w' = trace w ++
      [EvCall (CFind (Filter (bindOptions ms)) (findOptions (bindOptions ms)))].
Proof.
  unfold FindMany, mbind, St_bind, submit, mret, St_ret.
  destruct (coll_Find _ _ _) as [[cursor [e|]] db]; simpl.
  - by eexists _, _.
  - destruct (Cursor_All cursor) as [models [e|]]; by eexists _, _.
Qed.

End FindFacts.

(** C6. The find parameters derived from an option are its Sort, Skip, Limit
    and Projection fields, copied, and depend on nothing else.  When no
    mutator of the sequence sets Skip (Limit), the parameters derived from
    the bound option hold no offset (no row cap): the nil pointer, not a
    pointer to zero.  FindMany submits the bound option's Filter together
    with these parameters, in one call to the driver. *)
Theorem findOptions_projects :
  (∀ o, fo_Sort (findOptions o) = Sort o ∧ fo_Skip (findOptions o) = Skip o ∧
        fo_Limit (findOptions o) = Limit o ∧
        fo_Projection (findOptions o) = Projection o) ∧
  (∀ o1 o2, agree_on [FSort; FSkip; FLimit; FProjection] o1 o2 →
            findOptions o1 = findOptions o2) ∧
  (∀ ms, Forall (leaves FSkip) ms →
         fo_Skip (findOptions (bindOptions ms)) = None ∧
         fo_Skip (findOptions (bindOptions ms)) ≠ Some 0) ∧
  (∀ ms, Forall (leaves FLimit) ms →
         fo_Limit (findOptions (bindOptions ms)) = None ∧
         fo_Limit (findOptions (bindOptions ms)) ≠ Some 0) ∧
  (∀ (DB T : Type) (DRV : Driver DB T) ms (w : World DB T),
     ∃ res w', FindMany ms w = Ok res w' ∧
       calls (trace w') = calls (trace w) ++
         [CFind (Filter (bindOptions ms)) (findOptions (bindOptions ms))]).
Proof.
  split; [by intros o|].
  split.
  { intros o1 o2 Hag.
    assert (read FSort o1 = read FSort o2) as H1 by (apply Hag; set_solver).
    assert (read FSkip o1 = read FSkip o2) as H2 by (apply Hag; set_solver).
    assert (read FLimit o1 = read FLimit o2) as H3 by (apply Hag; set_solver).
    assert (read FProjection o1 = read FProjection o2) as H4 by (apply Hag; set_solver).
    unfold findOptions. simpl in *. congruence. }
  split.
  { intros ms Hall. pose proof (leaves_run FSkip ms option_zero Hall) as Hrd.
    rewrite <- bindOptions_run in Hrd. simpl in *.
    injection Hrd as ->. by split. }
  split.
  { intros ms Hall. pose proof (leaves_run FLimit ms option_zero Hall) as Hrd.
    rewrite <- bindOptions_run in Hrd. simpl in *.
    injection Hrd as ->. by split. }
  intros DB T DRV ms w.
  destruct (FindMany_trace ms w) as (res & w' & Hrun & Htr).
  exists res, w'. split; [exact Hrun|].
  rewrite Htr. unfold calls. by rewrite omap_app.
Qed.

(** C6, on a sequence that sets a filter and a sort order only. *)
Lemma findOptions_projects_witness :
  fo_Skip (findOptions (bindOptions [setFilter (Some {[ "name" := VStr "a" ]});
                                     setSort (Some {[ "name" := VInt 1 ]})])) = None
  ∧ fo_Limit (findOptions (bindOptions [setFilter (Some {[ "name" := VStr "a" ]});
                                        setSort (Some {[ "name" := VInt 1 ]})])) = None.
Proof.
  split.
  - apply (proj1 (proj2 (proj2 findOptions_projects))). auto with mgo.
  - apply (proj1 (proj2 (proj2 (proj2 findOptions_projects)))). auto with mgo.
Defined.

(** C10. The call FindOne submits is decided by the Filter of the bound
    option alone: two mutator sequences whose bound options agree on Filter
    make FindOne submit the same single call and return the same result,
    whatever they put into Sort, Projection, Skip, Limit, Pipeline or Update;
    in particular, mutators that leave Filter alone can be added to a
    sequence without any effect.  The same holds for the baseline
    collection. *)
Theorem FindOne_consults_Filter_only
    (DB T : Type) (DRV : Driver DB T)
    (ms1 ms2 : list Option) (w : World DB T) :
  Filter (bindOptions ms1) = Filter (bindOptions ms2) →
  FindOne ms1 w = FindOne ms2 w ∧
  baseline.FindOne ms1 w = baseline.FindOne ms2 w ∧
  (∃ res w', FindOne ms1 w = Ok res w' ∧
     trace w' = trace w ++ [EvCall (CFindOne (Filter (bindOptions ms1)))]) ∧
  (∀ ms', Forall (leaves FFilter) ms' → FindOne (ms1 ++ ms') w = FindOne ms1 w).
Proof.
  intros Heq.
  split; [by rewrite !FindOne_unfold, Heq|].
  split; [by rewrite !baseline_FindOne_unfold, Heq|].
  split.
  - rewrite FindOne_unfold. by eexists _, _.
  - intros ms' Hall. rewrite !FindOne_unfold.
    assert (Filter (bindOptions (ms1 ++ ms')) = Filter (bindOptions ms1)) as ->; [|done].
    pose proof (leaves_run FFilter ms' (bindOptions ms1) Hall) as Hrd.
    rewrite !bindOptions_run, run_app. simpl in Hrd. by injection Hrd.
Qed.

(** C10, on two sequences with the same filter, one of which also sets a
    sort order, a projection and a page. *)
Lemma FindOne_consults_Filter_only_witness :
  FindOne (DRV := sim.memory)
    [setFilter (Some {[ "name" := VStr "a" ]}); setSort (Some {[ "age" := VInt 1 ]});
     setProjection (Some {[ "name" := VInt 1 ]}); setSkip (Some 2); setLimit (Some 5)]
    (sim.world0 [[("name", VStr "a")]])
  = FindOne (DRV := sim.memory)
    [setFilter (Some {[ "name" := VStr "a" ]})]
    (sim.world0 [[("name", VStr "a")]]).
Proof.
  refine (proj1 (FindOne_consults_Filter_only (list Raw) Raw sim.memory _ _ _ _)).
  reflexivity.
Defined.

(* ===================================================================== *)
(** * Properties of the stamped writes *)
(* ===================================================================== *)

Section WriteFacts.

Context {RT : Runtime} {DB T : Type} {DRV : Driver DB T}.

Implicit Types (w : World DB T) (ms : list Option) (o : option_)
  (u d : gmap string value).

(** No [$set] entry: one is created, in the document at hand or in a new
    one when [Update] is nil. *)
Lemma setUpdate_creates o w :
  get (Update o) "$set" = None →
  setUpdate o w =
  Ok (with_Update o (Some (<["$set" := VM (Some {[ "updated_at" := VTime (wall (clock_reads w)) ]})]>
                             (default ∅ (Update o)))))
     (tick w).
Proof.
  intros Hget. unfold setUpdate.
  destruct (Update o) as [u|] eqn:Hu; simpl in *.
  - rewrite Hu. simpl. by rewrite Hget.
  - reflexivity.
Qed.

(** A [$set] entry holding a map: the stamp is written into that map. *)
Lemma setUpdate_merges o w u d :
  Update o = Some u → u !! "$set" = Some (VM (Some d)) →
  setUpdate o w =
  Ok (with_Update o (Some (<["$set" := VM (Some (<["updated_at" := VTime (wall (clock_reads w))]> d))]> u)))
     (tick w).
Proof.
  intros Hu Hset. unfold setUpdate. rewrite Hu. simpl. rewrite Hu. simpl.
  by rewrite Hset.
Qed.

(** A [$set] entry holding anything but a [bson.M]: the type assertion
    panics, before anything else is done. *)
Lemma setUpdate_asserts o w v :
  get (Update o) "$set" = Some v → is_M v = false →
  setUpdate o w = Panic PanicTypeAssertion w.
Proof.
  intros Hget Hv. unfold setUpdate.
  destruct (Update o) as [u|] eqn:Hu; simpl in *; [|done].
  rewrite Hu. simpl. rewrite Hget. by destruct v.
Qed.

Lemma setSoftDelete_replaces o w :
  setSoftDelete o w =
  Ok (with_Update o (Some (<["$set" := VM (Some {[ "deleted_at" := VTime (wall (clock_reads w)) ]})]>
                             (default ∅ (Update o)))))
     (tick w).
Proof.
  unfold setSoftDelete. destruct (Update o) as [u|] eqn:Hu; simpl.
  - by rewrite Hu.
  - reflexivity.
Qed.

(** A stamping step followed by the submission of the update. *)
Lemma stamped_write
    (stamp : option_ → Go DB T option_)
    (method : M → M → Call T) (run : M → M → DB → option error * DB)
    ms w u' :
  stamp (bindOptions ms) w = Ok (with_Update (bindOptions ms) (Some u')) (tick w) →
  stamps_then_submits
    (fun options => opt ← stamp (bindOptions options);
                    submit (method (Filter opt) (Update opt)) (run (Filter opt) (Update opt)))
    method ms w u'.
Proof.
  intros Hstamp. unfold stamps_then_submits, mbind, St_bind. rewrite Hstamp.
  unfold submit. simpl.
  destruct (run _ _ _) as [err db]. eexists _, _. split; [reflexivity|].
  simpl. split; [reflexivity|]. by rewrite <- app_assoc.
Qed.

Lemma panicking_write
    (stamp : option_ → Go DB T option_)
    (method : M → M → Call T) (run : M → M → DB → option error * DB)
    ms w p :
  stamp (bindOptions ms) w = Panic p w →
  (opt ← stamp (bindOptions ms);
   submit (method (Filter opt) (Update opt)) (run (Filter opt) (Update opt))) w
  = Panic p w.
Proof. intros Hstamp. unfold mbind, St_bind. by rewrite Hstamp. Qed.

End WriteFacts.

(** C1. UpdateOne and UpdateMany bind the mutators, apply the update stamp
    to the bound option, and submit the stamped document: the clock is read
    exactly once, after binding and before the single call to the driver.
    A nil Update is initialised; an Update without a [$set] entry receives
    one holding [updated_at = now]; into a [$set] document that is already
    there [updated_at = now] is written, and every field the caller put
    there is still present, unchanged unless it is [updated_at] itself. *)
Theorem update_stamp_applied_once
    (RT : Runtime) (DB T : Type) (DRV : Driver DB T)
    (ms : list Option) (w : World DB T) :
  let opt := bindOptions ms in
  let now := VTime (wall (clock_reads w)) in
  (Update opt = None →
     stamps_then_submits UpdateOne CUpdateOne ms w
       {[ "$set" := VM (Some {[ "updated_at" := now ]}) ]} ∧
     stamps_then_submits UpdateMany CUpdateMany ms w
       {[ "$set" := VM (Some {[ "updated_at" := now ]}) ]}) ∧
  (∀ u, Update opt = Some u → u !! "$set" = None →
     stamps_then_submits UpdateOne CUpdateOne ms w
       (<["$set" := VM (Some {[ "updated_at" := now ]})]> u) ∧
     stamps_then_submits UpdateMany CUpdateMany ms w
       (<["$set" := VM (Some {[ "updated_at" := now ]})]> u)) ∧
  (∀ u d, Update opt = Some u → u !! "$set" = Some (VM (Some d)) →
     let d' := <["updated_at" := now]> d in
     stamps_then_submits UpdateOne CUpdateOne ms w (<["$set" := VM (Some d')]> u) ∧
     stamps_then_submits UpdateMany CUpdateMany ms w (<["$set" := VM (Some d')]> u) ∧
     d' !! "updated_at" = Some now ∧
     (∀ k v, d !! k = Some v →
             is_Some (d' !! k) ∧ (k ≠ "updated_at" → d' !! k = Some v))).
Proof.
  intros opt now. split; [|split].
  - intros Hnil.
    assert (setUpdate opt w =
            Ok (with_Update opt (Some {[ "$set" := VM (Some {[ "updated_at" := now ]}) ]}))
               (tick w)) as Hstamp.
    { rewrite setUpdate_creates by (by rewrite Hnil). by rewrite Hnil. }
    split; apply (stamped_write setUpdate); exact Hstamp.
  - intros u Hu Hset.
    assert (setUpdate opt w =
            Ok (with_Update opt (Some (<["$set" := VM (Some {[ "updated_at" := now ]})]> u)))
               (tick w)) as Hstamp.
    { rewrite setUpdate_creates by (by rewrite Hu). by rewrite Hu. }
    split; apply (stamped_write setUpdate); exact Hstamp.
  - intros u d Hu Hset d'.
    pose proof (setUpdate_merges opt w u d Hu Hset) as Hstamp.
    split; [apply (stamped_write setUpdate); exact Hstamp|].
    split; [apply (stamped_write setUpdate); exact Hstamp|].
    split; [apply lookup_insert_eq|].
    intros k v Hk. unfold d'. destruct (decide (k = "updated_at")) as [->|Hne].
    + rewrite lookup_insert_eq. split; [by eexists | done].
    + rewrite lookup_insert_ne by done. rewrite Hk. split; [by eexists | done].
Qed.

(** C1, on an update whose [$set] document names a field. *)
Lemma update_stamp_applied_once_witness :
  stamps_then_submits (RT := sim.ticking)
    (UpdateOne (RT := sim.ticking) (DRV := sim.memory)) CUpdateOne
    [setFilter (Some {[ "name" := VStr "a" ]});
     setUpdateDoc (Some {[ "$set" := VM (Some {[ "name" := VStr "b" ]}) ]})]
    (sim.world0 [[("name", VStr "a")]])
    (<["$set" := VM (Some (<["updated_at" := VTime 1700000000000000000]>
                             {[ "name" := VStr "b" ]}))]>
       {[ "$set" := VM (Some {[ "name" := VStr "b" ]}) ]}).
Proof.
  refine (proj1 (proj2 (proj2
    (update_stamp_applied_once sim.ticking (list Raw) Raw sim.memory _ _)) _ _ _ _)).
  - reflexivity.
  - reflexivity.
Defined.

(** C9. When the bound option's Update holds under [$set] a value that is
    not a [bson.M], as happens when the last mutator to set Update supplies
    such a document, UpdateOne and UpdateMany panic on the type assertion:
    they return neither a result nor an error, and nothing is submitted to
    the driver.  So the two operations return only if the [$set] entry, when
    there is one, holds a [bson.M]. *)
Theorem update_stamp_panics_on_foreign_set
    (RT : Runtime) (DB T : Type) (DRV : Driver DB T)
    (ms : list Option) (w : World DB T) (v : value) :
  get (Update (bindOptions ms)) "$set" = Some v →
  is_M v = false →
  (∃ w', UpdateOne ms w = Panic PanicTypeAssertion w' ∧
         calls (trace w') = calls (trace w)) ∧
  (∃ w', UpdateMany ms w = Panic PanicTypeAssertion w' ∧
         calls (trace w') = calls (trace w)) ∧
  (∀ err w', UpdateOne ms w ≠ Ok err w' ∧ UpdateMany ms w ≠ Ok err w').
Proof.
  intros Hget Hv.
  pose proof (setUpdate_asserts (bindOptions ms) w v Hget Hv) as Hpanic.
  assert (UpdateOne ms w = Panic PanicTypeAssertion w) as H1
    by (apply (panicking_write setUpdate); exact Hpanic).
  assert (UpdateMany ms w = Panic PanicTypeAssertion w) as H2
    by (apply (panicking_write setUpdate); exact Hpanic).
  rewrite H1, H2. split; [by exists w|]. split; [by exists w|].
  intros err w'. by split.
Qed.

(** C9, on an update whose [$set] is an ordered document ([bson.D]). *)
Lemma update_stamp_panics_on_foreign_set_witness :
  ∃ w', UpdateOne (RT := sim.ticking) (DRV := sim.memory)
          [setFilter (Some {[ "name" := VStr "a" ]});
           setUpdateDoc (Some {[ "$set" := VD [("name", VStr "b")] ]})]
          (sim.world0 [[("name", VStr "a")]])
        = Panic PanicTypeAssertion w' ∧
        calls (trace w') = calls (trace (sim.world0 [[("name", VStr "a")]])).
Proof.
  refine (proj1 (update_stamp_panics_on_foreign_set
            sim.ticking (list Raw) Raw sim.memory _ _ (VD [("name", VStr "b")]) _ _)).
  - reflexivity.
  - reflexivity.
Defined.

(** C2. SoftDeleteOne and SoftDeleteMany bind the mutators, read the clock
    once and submit one update whose [$set] entry is exactly
    [{deleted_at: now}], whatever the mutators had put under [$set]: none of
    the caller's [$set] fields is in the document submitted. *)
Theorem soft_delete_replaces_set
    (RT : Runtime) (DB T : Type) (DRV : Driver DB T)
    (ms : list Option) (w : World DB T) :
  let opt := bindOptions ms in
  let now := VTime (wall (clock_reads w)) in
  let u' := <["$set" := VM (Some {[ "deleted_at" := now ]})]> (default ∅ (Update opt)) in
  stamps_then_submits SoftDeleteOne CUpdateOne ms w u' ∧
  stamps_then_submits SoftDeleteMany CUpdateMany ms w u' ∧
  u' !! "$set" = Some (VM (Some {[ "deleted_at" := now ]})) ∧
  (∀ d k v, get (Update opt) "$set" = Some (VM (Some d)) → d !! k = Some v →
            k ≠ "deleted_at" →
            ∃ d', u' !! "$set" = Some (VM (Some d')) ∧ d' !! k = None ∧
                  d' !! "deleted_at" = Some now).
Proof.
  intros opt now u'.
  pose proof (setSoftDelete_replaces opt w) as Hstamp.
  split; [apply (stamped_write setSoftDelete); exact Hstamp|].
  split; [apply (stamped_write setSoftDelete); exact Hstamp|].
  split; [apply lookup_insert_eq|].
  intros d k v _ _ Hk. eexists. split; [apply lookup_insert_eq|].
  split; [by apply lookup_singleton_ne | apply lookup_singleton_eq].
Qed.

(** A soft delete whose mutators also ask to set a name and to increment a
    counter: the name is gone from what is submitted, the counter stays. *)
Example soft_delete_discards_caller_set :
  ∃ w',
    SoftDeleteOne (RT := sim.ticking) (DRV := sim.memory)
      [setFilter (Some {[ "name" := VStr "a" ]});
       setUpdateDoc (Some {[ "$set" := VM (Some {[ "name" := VStr "b" ]});
                             "$inc" := VM (Some {[ "visits" := VInt 1 ]}) ]})]
      (sim.world0 [[("name", VStr "a")]]) = Ok None w' ∧
    calls (trace w') =
      [CUpdateOne (Some {[ "name" := VStr "a" ]})
                  (Some {[ "$set" := VM (Some {[ "deleted_at" := VTime 1700000000000000000 ]});
                           "$inc" := VM (Some {[ "visits" := VInt 1 ]}) ]})].
Proof. eexists. split; vm_compute; reflexivity. Qed.

Section WriteEdge.

Context {RT : Runtime} {DB T : Type} {DRV : Driver DB T}.

(** A [$set] entry holding the nil [bson.M] passes the type assertion; the
    assignment into it panics, after the clock was read. *)
Lemma setUpdate_nil_set (o : option_) (w : World DB T) :
  get (Update o) "$set" = Some (VM None) →
  setUpdate o w = Panic PanicNilMap (tick w).
Proof.
  intros Hget. unfold setUpdate.
  destruct (Update o) as [u|] eqn:Hu; simpl in *; [|done].
  rewrite Hu. simpl. by rewrite Hget.
Qed.

End WriteEdge.

(* ===================================================================== *)
(** * Absence in FindOne *)
(* ===================================================================== *)

(** In the in-memory store, a filter that matches no document yields a
    result that holds none. *)
Lemma memory_FindOne_no_match (f : M) (db : list Raw) :
  Forall (fun d => sim.matches f d = false) db →
  sr_doc (coll_FindOne (Driver := sim.memory) f db).1 = None.
Proof.
  intros Hall. simpl.
  induction Hall as [|d db Hd _ IH]; [reflexivity|].
  rewrite filter_cons. destruct (decide (sim.matches f d = true)) as [Ht|_]; [|exact IH].
  congruence.
Qed.

(** C8. When the driver finds no document for the bound filter, FindOne
    returns a non-nil error next to the pointer to the zero model: the
    error of the command if it failed, [ErrNoDocuments] otherwise.  Absence
    never shows as a nil error; the caller has to look at the error.  The
    baseline FindOne does the same. *)
Theorem FindOne_absent_is_an_error
    (DB T : Type) (DRV : Driver DB T) (ms : list Option) (w : World DB T) :
  sr_doc (coll_FindOne (Filter (bindOptions ms)) (store w)).1 = None →
  ∃ e w',
    FindOne ms w = Ok (zero, Some e) w' ∧
    baseline.FindOne ms w = Ok (zero, Some e) w' ∧
    (sr_err (coll_FindOne (Filter (bindOptions ms)) (store w)).1 = None →
     e = ErrNoDocuments).
Proof.
  intros Hnone. rewrite baseline_FindOne_unfold, FindOne_unfold.
  unfold SingleResult_Decode. rewrite Hnone.
  destruct (sr_err _) as [e|].
  - exists e. eexists. by repeat split.
  - exists ErrNoDocuments. eexists. by repeat split.
Qed.

(** C8, on a collection holding one document the filter does not match. *)
Lemma FindOne_absent_is_an_error_witness :
  ∃ e w',
    FindOne (DRV := sim.memory) [setFilter (Some {[ "name" := VStr "a" ]})]
            (sim.world0 [[("name", VStr "b")]]) = Ok ([], Some e) w' ∧
    baseline.FindOne (DRV := sim.memory) [setFilter (Some {[ "name" := VStr "a" ]})]
            (sim.world0 [[("name", VStr "b")]]) = Ok ([], Some e) w' ∧
    (@None error = None → e = ErrNoDocuments).
Proof.
  refine (FindOne_absent_is_an_error (list Raw) Raw sim.memory
            [setFilter (Some {[ "name" := VStr "a" ]})]
            (sim.world0 [[("name", VStr "b")]]) _).
  vm_compute. reflexivity.
Defined.

(* ===================================================================== *)
(** * Properties of the insert path *)
(* ===================================================================== *)

Section InsertFacts.

Context {RT : Runtime} {DB T : Type} {DRV : Driver DB T}.

Implicit Types (w : World DB T) (v : T).

(** The record [newRecord] builds, and what building it leaves behind: one
    identifier drawn, then two readings of the clock. *)
Lemma newRecord_unfold v w :
  newRecord v w =
  Ok (mkRecord (mkEntity (oid (oids_drawn w)) (wall (clock_reads w))
                         (wall (S (clock_reads w))) None) v)
     (mkWorld (S (S (clock_reads w))) (S (oids_drawn w)) (store w)
              (trace w ++ [EvNewObjectID (oid (oids_drawn w));
                           EvNow (wall (clock_reads w));
                           EvNow (wall (S (clock_reads w)))])).
Proof.
  unfold newRecord, mbind, St_bind, primitive_NewObjectID, time_Now, tick, mret, St_ret.
  simpl. by rewrite <- !app_assoc.
Qed.

Lemma InsertOne_unfold v w :
  ∃ err w',
    InsertOne v w = Ok err w' ∧
    calls (trace w') = calls (trace w) ++
      [CInsertOne (DRecord (mkRecord (mkEntity (oid (oids_drawn w)) (wall (clock_reads w))
                                               (wall (S (clock_reads w))) None) v))].
Proof.
  unfold InsertOne, mbind, St_bind. rewrite newRecord_unfold.
  unfold submit. simpl. destruct (coll_InsertOne _ _) as [err db].
  eexists _, _. split; [reflexivity|].
  unfold calls. simpl. rewrite !omap_app. simpl. by rewrite app_nil_r.
Qed.

(** The envelope of an inserted record, part by part. *)
Lemma newRecord_envelope v w r w' :
  newRecord v w = Ok r w' →
  ID (E r) = oid (oids_drawn w) ∧
  CreatedAt (E r) = wall (clock_reads w) ∧
  UpdatedAt (E r) = wall (S (clock_reads w)) ∧
  DeletedAt (E r) = None ∧
  V r = v.
Proof. rewrite newRecord_unfold. intros [= <- <-]. by repeat split. Qed.

(** The two timestamps coincide exactly when the clock did not move between
    its two readings. *)
Lemma newRecord_timestamps v w r w' :
  newRecord v w = Ok r w' →
  CreatedAt (E r) = UpdatedAt (E r) ↔ wall (clock_reads w) = wall (S (clock_reads w)).
Proof.
  intros Hrec. destruct (newRecord_envelope v w r w' Hrec) as (_ & -> & -> & _).
  reflexivity.
Qed.

(** Every element of [InsertMany] gets a record of its own. *)
Lemma newRecords_wrap (vs : list T) w :
  ∃ docs w',
    newRecords vs w = Ok docs w' ∧
    store w' = store w ∧
    calls (trace w') = calls (trace w) ∧
    Forall2 (fun v doc => ∃ r, doc = DRecord r ∧ V r = v ∧ DeletedAt (E r) = None) vs docs.
Proof.
  revert w. induction vs as [|v vs IH]; intros w.
  - exists [], w. by repeat split.
  - simpl. unfold mbind, St_bind. rewrite newRecord_unfold.
    match goal with |- context [newRecords vs ?w1] =>
      destruct (IH w1) as (docs & w' & -> & Hst & Hcalls & Hall) end.
    eexists _, w'. split; [reflexivity|]. split; [exact Hst|]. split.
    + rewrite Hcalls. simpl. unfold calls. rewrite omap_app. simpl. by rewrite app_nil_r.
    + constructor; [|exact Hall]. eexists. by repeat split.
Qed.

Lemma InsertMany_unfold (vs : list T) w :
  ∃ docs err w',
    InsertMany vs w = Ok err w' ∧
    calls (trace w') = calls (trace w) ++ [CInsertMany docs] ∧
    Forall2 (fun v doc => ∃ r, doc = DRecord r ∧ V r = v ∧ DeletedAt (E r) = None) vs docs.
Proof.
  unfold InsertMany, mbind, St_bind.
  destruct (newRecords_wrap vs w) as (docs & w1 & -> & _ & Hcalls & Hall).
  unfold submit. destruct (coll_InsertMany _ _) as [err db].
  exists docs. eexists _, _. split; [reflexivity|]. split; [|exact Hall].
  simpl. unfold calls in *. by rewrite omap_app, Hcalls.
Qed.

End InsertFacts.

Lemma flatten_Inlined (fs : list tagged) :
  flatten (Inlined fs) = concat (map flatten fs).
Proof.
  simpl. induction fs as [|f fs IH]; [reflexivity|]. simpl. by rewrite IH.
Qed.

Lemma marshal_record_fields {T} `{Struct T} (r : record T) :
  marshal (record_fields r) = marshal (Entity_fields (E r)) ++ marshal (fields (V r)).
Proof.
  unfold marshal, record_fields. rewrite (flatten_Inlined [_; _]). simpl.
  by rewrite app_nil_r.
Qed.

(** C3. The code at a clock that moves between two readings: the record
    InsertOne submits carries a fresh non-nil identifier, no deleted-at and
    the caller's value, but its created-at and updated-at are the two
    successive readings that [newRecord] takes, and they differ.  The same
    happens to each element of InsertMany. *)
Theorem insert_reads_clock_twice :
  (∃ r w',
     InsertOne (RT := sim.ticking) (DRV := sim.memory) [("name", VStr "a")] (sim.world0 [])
       = Ok None w' ∧
     calls (trace w') = [CInsertOne (DRecord r)] ∧
     ID (E r) ≠ NilObjectID ∧ DeletedAt (E r) = None ∧ V r = [("name", VStr "a")] ∧
     CreatedAt (E r) = 1700000000000000000 ∧
     UpdatedAt (E r) = 1700000000000000001 ∧
     CreatedAt (E r) ≠ UpdatedAt (E r)) ∧
  (∃ r1 r2 w',
     InsertMany (RT := sim.ticking) (DRV := sim.memory)
       [[("name", VStr "a")]; [("name", VStr "b")]] (sim.world0 [])
       = Ok None w' ∧
     calls (trace w') = [CInsertMany [DRecord r1; DRecord r2]] ∧
     CreatedAt (E r1) ≠ UpdatedAt (E r1) ∧
     CreatedAt (E r2) ≠ UpdatedAt (E r2)).
Proof.
  split.
  - eexists _, _. split; [vm_compute; reflexivity|].
    split; [vm_compute; reflexivity|]. simpl. by repeat split.
  - eexists _, _, _. split; [vm_compute; reflexivity|].
    split; [vm_compute; reflexivity|]. simpl. by split.
Qed.

(** On a clock that stands still the two timestamps do coincide. *)
Example insert_on_frozen_clock :
  ∃ r w',
    InsertOne (RT := sim.frozen) (DRV := sim.memory) [("name", VStr "a")] (sim.world0 [])
      = Ok None w' ∧
    calls (trace w') = [CInsertOne (DRecord r)] ∧
    CreatedAt (E r) = UpdatedAt (E r).
Proof. eexists _, _. split; [|split]; vm_compute; reflexivity. Qed.


(* ===================================================================== *)
(** * Properties of configuration loading *)
(* ===================================================================== *)

(** No field of [config] is tagged as required or given a default, so
    [Process] sets the fields whose variable is found and skips the others:
    it has no error to return. *)
Lemma Process_config (env : Environ) (c : config) :
  ∃ cfg, envconfig.Process "MGO" env c = inr cfg ∧
         ∀ f, config_get f cfg = default (config_get f c) (env_value env f).
Proof.
  unfold envconfig.Process.
  change (envconfig.gatherInfo "MGO" config_struct) with
    [ envconfig.mkVarInfo CAddrs "MGO_ADDRS" "ADDRS" "" "";
      envconfig.mkVarInfo CName "MGO_NAME" "NAME" "" "";
      envconfig.mkVarInfo CAuthSource "MGO_AUTH_SOURCE" "AUTH_SOURCE" "" "";
      envconfig.mkVarInfo CUser "MGO_USER" "USER" "" "";
      envconfig.mkVarInfo CPassword "MGO_PASSWORD" "PASSWORD" "" "" ].
  unfold envconfig.process_infos.
  cbn [envconfig.Key envconfig.Alt envconfig.Required envconfig.Default envconfig.vi_field].
  change (envconfig.isTrue "") with false.
  repeat match goal with
         | |- context [decide (?a = ?b)] =>
             let d := eval vm_compute in (decide (a = b)) in
             change (decide (a = b)) with d
         end.
  cbv iota.
  destruct (env !! "MGO_ADDRS") eqn:Ha; [|destruct (env !! "ADDRS") eqn:Ha'];
  (destruct (env !! "MGO_NAME") eqn:Hn; [|destruct (env !! "NAME") eqn:Hn']);
  (destruct (env !! "MGO_AUTH_SOURCE") eqn:Hs; [|destruct (env !! "AUTH_SOURCE") eqn:Hs']);
  (destruct (env !! "MGO_USER") eqn:Hu; [|destruct (env !! "USER") eqn:Hu']);
  (destruct (env !! "MGO_PASSWORD") eqn:Hp; [|destruct (env !! "PASSWORD") eqn:Hp']);
  (eexists; split; [reflexivity|];
   intros []; unfold env_value; cbn [env_name];
   match goal with
   | |- context [(?a +:+ ?b)%string] =>
       let r := eval vm_compute in (a +:+ b)%string in
       change (a +:+ b)%string with r
   end;
   rewrite ?Ha, ?Ha', ?Hn, ?Hn', ?Hs, ?Hs', ?Hu, ?Hu', ?Hp, ?Hp'; reflexivity).
Qed.

(** The loop does fail on a variable that is not set when the field asks
    for it with [required:"true"]; [config] has no such field. *)
Example process_infos_required :
  envconfig.process_infos ∅
    [envconfig.mkVarInfo CAddrs "MGO_ADDRS" "ADDRS" "true" ""]
    (mkConfig "" "" "" "" "")
  = inl "required key ADDRS missing value".
Proof. vm_compute. reflexivity. Qed.

(** C5, refuted: with ADDRS absent from the environment, loading returns a
    configuration with an empty address list instead of failing, and connect
    goes on to the driver with the single empty host it splits out of it. *)
Lemma config_loads_without_ADDRS :
  env_value sim.env_without_ADDRS CAddrs = None ∧
  readConfig sim.env_without_ADDRS [] = Ok (mkConfig "" "app" "admin" "svc" "secret") [] ∧
  connect (NET := sim.unreachable) sim.env_without_ADDRS []
  = Ok (None, Some (ErrOther "server selection timeout"))
       [NetConnect (mkClientOptions [""] 5000000000 5000000000
                                    (mkCredential "admin" "svc" "secret"));
        NetPing].
Proof. repeat split; vm_compute; reflexivity. Qed.

(** C5, as the code has it.  Loading reads each of the five values from
    the variable prefixed with [MGO_], or from the plain one when that is
    not set; it requires none of them: whatever the environment holds,
    loading returns a configuration, in which a value that is absent is the
    empty string, and connect then makes its connection attempt with the
    hosts split out of the loaded address list and the loaded credentials. *)
Theorem config_loading_never_fails (NET : Network) (env : Environ) (tr : list NetEvent) :
  ∃ cfg,
    readConfig env tr = Ok cfg tr ∧
    (∀ f, config_get f cfg = default "" (env_value env f)) ∧
    ∃ res tr',
      connect env tr =
      Ok res (tr ++ NetConnect
                      (mkClientOptions (strings.Split (Addrs cfg) ",")
                                       (5 * Second) (5 * Second)
                                       (mkCredential (AuthSource cfg) (User cfg) (Password cfg)))
                 :: tr').
Proof.
  destruct (Process_config env (mkConfig "" "" "" "" "")) as (cfg & Hproc & Hget).
  assert (readConfig env tr = Ok cfg tr) as Hread.
  { unfold readConfig. by rewrite Hproc. }
  exists cfg. split; [exact Hread|]. split.
  { intros f. rewrite Hget. by destruct f. }
  unfold connect, mbind, St_bind. rewrite Hread. unfold attempt. simpl.
  destruct (mongo_Connect _) as [e|]; simpl.
  - by eexists _, [].
  - destruct (client_Ping _) as [e|]; simpl.
    + eexists _, [NetPing]. by rewrite <- app_assoc.
    + eexists _, [NetPing]. by rewrite <- app_assoc.
Qed.

(* ===================================================================== *)
(** * Further properties: decoding of cursors *)
(* ===================================================================== *)

Section DecodeFacts.

Context {DB T : Type} {DRV : Driver DB T}.

Implicit Types (docs : list Raw) (vs : list T) (w : World DB T) (ms : list Option).

(** [decode_all] never returns models next to an error. *)
Lemma decode_all_error docs vs e : decode_all docs = (vs, Some e) → vs = [].
Proof.
  destruct docs as [|d rest]; simpl; [done|].
  destruct (decode d zero) as [v [e'|]]; [by intros [= <- _]|].
  destruct (decode_all rest) as [vs' [e'|]]; by intros [= <- ?].
Qed.

(** On success every document was decoded, in order. *)
Lemma decode_all_success docs vs :
  decode_all docs = (vs, None) ↔ Forall2 (fun d v => decode d zero = (v, None)) docs vs.
Proof.
  revert vs. induction docs as [|d rest IH]; intros vs; simpl.
  - split; [by intros [= <-]; constructor | by inversion 1].
  - destruct (decode d zero) as [v oe] eqn:Hd. split.
    + destruct oe as [e|]; [done|].
      destruct (decode_all rest) as [vs' [e|]] eqn:Hrest; [done|].
      intros [= <-]. constructor; [done|]. by apply IH.
    + inversion 1 as [|? v' ? vs' Hv Hrest]; subst.
      rewrite Hv in Hd. injection Hd as <- <-.
      apply IH in Hrest. by rewrite Hrest.
Qed.

(** An error of [decode_all] is the error of a document that did not decode. *)
Lemma decode_all_failure docs vs e :
  decode_all docs = (vs, Some e) → ∃ d, d ∈ docs ∧ (decode d zero).2 = Some e.
Proof.
  revert vs. induction docs as [|d rest IH]; intros vs; simpl; [done|].
  destruct (decode d zero) as [v [e'|]] eqn:Hd.
  - intros [= _ <-]. exists d. split; [by left | by rewrite Hd].
  - destruct (decode_all rest) as [vs' [e'|]] eqn:Hrest; [|done].
    intros [= _ <-]. destruct (IH _ eq_refl) as (d' & Hin & He).
    exists d'. split; [by right | done].
Qed.

(** The three ways [Cursor.All] ends. *)
Lemma Cursor_All_cases (c : Cursor) vs oe :
  Cursor_All c = (vs, oe) →
  match oe with
  | None => cur_err c = None ∧
            Forall2 (fun d v => decode d zero = (v, None)) (cur_docs c) vs
  | Some e => vs = [] ∧
              (cur_err c = Some e ∨ ∃ d, d ∈ cur_docs c ∧ (decode d zero).2 = Some e)
  end.
Proof.
  unfold Cursor_All. destruct (decode_all (cur_docs c)) as [vs' [e|]] eqn:Hall.
  - intros [= <- <-]. split; [done|]. right. by eapply decode_all_failure.
  - destruct (cur_err c) as [e|] eqn:Herr.
    + intros [= <- <-]. split; [done|]. by left.
    + intros [= <- <-]. split; [done|]. by apply decode_all_success.
Qed.

End DecodeFacts.

(** X1. FindMany returns all or nothing.  When it returns no error, the
    driver's Find and the iteration of its cursor raised none, and the models
    are the documents of the cursor, each decoded, in the cursor's order.
    When it returns an error, it returns no model at all, and the error is
    the one of Find, the one the cursor ended with, or the one of a document
    that did not decode.  Either way exactly one call went to the driver.
    The baseline FindMany does the same. *)
Theorem FindMany_all_or_nothing
    (DB T : Type) (DRV : Driver DB T) (ms : list Option) (w : World DB T)
    (models : list T) (oe : option error) (w' : World DB T) :
  FindMany ms w = Ok (models, oe) w' →
  let reply := (coll_Find (Filter (bindOptions ms)) (findOptions (bindOptions ms)) (store w)).1 in
  baseline.FindMany ms w = Ok (models, oe) w' ∧
  calls (trace w') = calls (trace w) ++
    [CFind (Filter (bindOptions ms)) (findOptions (bindOptions ms))] ∧
  match oe with
  | None =>
      reply.2 = None ∧ cur_err reply.1 = None ∧
      Forall2 (fun d v => decode d zero = (v, None)) (cur_docs reply.1) models
  | Some e =>
      models = [] ∧
      (reply.2 = Some e ∨ cur_err reply.1 = Some e ∨
       ∃ d, d ∈ cur_docs reply.1 ∧ (decode d zero).2 = Some e)
  end.
Proof.
  intros Hrun reply. split; [exact Hrun|].
  revert Hrun. unfold FindMany, mbind, St_bind, submit, mret, St_ret. subst reply.
  destruct (coll_Find _ _ _) as [[cursor err] db]. simpl.
  assert (∀ tr c, calls (tr ++ [EvCall c]) = calls tr ++ [c :> Call T]) as Hcalls.
  { intros tr c. unfold calls. by rewrite omap_app. }
  destruct err as [e|].
  - intros [= <- <- <-]. simpl. split; [apply Hcalls|]. split; [done | by left].
  - destruct (Cursor_All cursor) as [vs [e|]] eqn:Hall;
      intros [= <- <- <-]; simpl; (split; [apply Hcalls|]);
      pose proof (Cursor_All_cases cursor _ _ Hall) as Hc; simpl in Hc.
    + destruct Hc as [_ [Hc|Hc]]; split; auto.
    + destruct Hc as [? ?]. by repeat split.
Qed.

(** X1, on two stored documents of which the filter selects one. *)
Lemma FindMany_all_or_nothing_witness :
  baseline.FindMany (DRV := sim.memory) [setFilter (Some {[ "name" := VStr "a" ]})]
    (sim.world0 [[("name", VStr "a")]; [("name", VStr "b")]])
  = Ok ([[("name", VStr "a")]], None)
       (mkWorld 0 0 [[("name", VStr "a")]; [("name", VStr "b")]]
                [EvCall (CFind (Some {[ "name" := VStr "a" ]})
                               (mkFindOptions None None None None))]).
Proof.
  refine (proj1 (FindMany_all_or_nothing (list Raw) Raw sim.memory _ _ _ _ _ _)).
  vm_compute. reflexivity.
Defined.

(** X2. Aggregate consults the Pipeline of the bound option and nothing
    else, and returns all or nothing: without an error, the models are the
    documents of the cursor, each decoded, in order; with an error, there are
    no models.  Exactly one call goes to the driver, and it carries the
    bound pipeline, nil when no mutator set one. *)
Theorem Aggregate_all_or_nothing
    (DB T : Type) (DRV : Driver DB T) (ms : list Option) (w : World DB T)
    (models : list T) (oe : option error) (w' : World DB T) :
  Aggregate ms w = Ok (models, oe) w' →
  let reply := (coll_Aggregate (Pipeline (bindOptions ms)) (store w)).1 in
  baseline.Aggregate ms w = Ok (models, oe) w' ∧
  calls (trace w') = calls (trace w) ++ [CAggregate (Pipeline (bindOptions ms))] ∧
  (∀ ms2, Pipeline (bindOptions ms2) = Pipeline (bindOptions ms) →
          Aggregate ms2 w = Ok (models, oe) w') ∧
  match oe with
  | None =>
      reply.2 = None ∧ cur_err reply.1 = None ∧
      Forall2 (fun d v => decode d zero = (v, None)) (cur_docs reply.1) models
  | Some e =>
      models = [] ∧
      (reply.2 = Some e ∨ cur_err reply.1 = Some e ∨
       ∃ d, d ∈ cur_docs reply.1 ∧ (decode d zero).2 = Some e)
  end.
Proof.
  intros Hrun reply. split; [exact Hrun|].
  split; [|split].
  - revert Hrun. unfold Aggregate, mbind, St_bind, submit, mret, St_ret.
    destruct (coll_Aggregate _ _) as [[cursor err] db]. simpl.
    assert (calls (trace w ++ [EvCall (CAggregate (Pipeline (bindOptions ms)))])
            = calls (trace w) ++ [CAggregate (Pipeline (bindOptions ms)) :> Call T]) as Hcalls.
    { unfold calls. by rewrite omap_app. }
    destruct err as [e|]; [by intros [= <- <- <-]|].
    destruct (Cursor_All cursor) as [vs [e|]]; by intros [= <- <- <-].
  - intros ms2 Heq. rewrite <- Hrun. unfold Aggregate. by rewrite Heq.
  - revert Hrun. unfold Aggregate, mbind, St_bind, submit, mret, St_ret. subst reply.
    destruct (coll_Aggregate _ _) as [[cursor err] db]. simpl.
    destruct err as [e|]; [intros [= <- <- <-]; split; [done | by left]|].
    destruct (Cursor_All cursor) as [vs [e|]] eqn:Hall;
      intros [= <- <- <-];
      pose proof (Cursor_All_cases cursor _ _ Hall) as Hc; simpl in Hc.
    + destruct Hc as [_ [Hc|Hc]]; split; auto.
    + destruct Hc as [? ?]. by repeat split.
Qed.

(** X2, on a pipeline of one stage over a collection of two documents. *)
Lemma Aggregate_all_or_nothing_witness :
  baseline.Aggregate (DRV := sim.memory)
    [appendStage (Some {[ "$limit" := VInt 5 ]})]
    (sim.world0 [[("name", VStr "a")]; [("name", VStr "b")]])
  = Ok ([[("name", VStr "a")]; [("name", VStr "b")]], None)
       (mkWorld 0 0 [[("name", VStr "a")]; [("name", VStr "b")]]
                [EvCall (CAggregate (Some [Some {[ "$limit" := VInt 5 ]}]))]).
Proof.
  refine (proj1 (Aggregate_all_or_nothing (list Raw) Raw sim.memory _ _ _ _ _ _)).
  vm_compute. reflexivity.
Defined.

(* ===================================================================== *)
(** * Further properties: which fields an operation consults *)
(* ===================================================================== *)

(** X3. FindMany is decided by the Filter, Sort, Skip, Limit and Projection
    of the bound option: two mutator sequences whose bound options agree on
    these five fields give the same call, the same result and the same final
    world, whatever they put into Update and Pipeline. *)
Theorem FindMany_consults_find_fields
    (DB T : Type) (DRV : Driver DB T) (ms1 ms2 : list Option) (w : World DB T) :
  agree_on [FFilter; FSort; FSkip; FLimit; FProjection] (bindOptions ms1) (bindOptions ms2) →
  FindMany ms1 w = FindMany ms2 w ∧ baseline.FindMany ms1 w = baseline.FindMany ms2 w.
Proof.
  intros Hag.
  assert (Filter (bindOptions ms1) = Filter (bindOptions ms2)) as Hf.
  { assert (read FFilter (bindOptions ms1) = read FFilter (bindOptions ms2)) as H
      by (apply Hag; set_solver). simpl in H. congruence. }
  assert (findOptions (bindOptions ms1) = findOptions (bindOptions ms2)) as Ho.
  { assert (read FSort (bindOptions ms1) = read FSort (bindOptions ms2)) as H1
      by (apply Hag; set_solver).
    assert (read FSkip (bindOptions ms1) = read FSkip (bindOptions ms2)) as H2
      by (apply Hag; set_solver).
    assert (read FLimit (bindOptions ms1) = read FLimit (bindOptions ms2)) as H3
      by (apply Hag; set_solver).
    assert (read FProjection (bindOptions ms1) = read FProjection (bindOptions ms2)) as H4
      by (apply Hag; set_solver).
    unfold findOptions. simpl in *. congruence. }
  unfold baseline.FindMany, FindMany. rewrite Hf, Ho. by split.
Qed.

(** X3, on two sequences of which one also sets an update and a pipeline. *)
Lemma FindMany_consults_find_fields_witness :
  FindMany (DRV := sim.memory)
    [setFilter (Some {[ "name" := VStr "a" ]}); setLimit (Some 1);
     setUpdateDoc (Some {[ "$set" := VM (Some {[ "name" := VStr "b" ]}) ]});
     appendStage (Some {[ "$limit" := VInt 5 ]})]
    (sim.world0 [[("name", VStr "a")]])
  = FindMany (DRV := sim.memory)
    [setLimit (Some 1); setFilter (Some {[ "name" := VStr "a" ]})]
    (sim.world0 [[("name", VStr "a")]]).
Proof.
  refine (proj1 (FindMany_consults_find_fields (list Raw) Raw sim.memory _ _ _ _)).
  intros f Hf. apply list_elem_of_In in Hf. simpl in Hf.
  destruct f; try reflexivity; intuition discriminate.
Defined.

(** X4. DeleteOne, DeleteMany and Count are decided by the Filter of the
    bound option alone.  Each returns what the driver answered, unchanged,
    after exactly one call that carries that filter; none of them reads the
    clock or draws an identifier, and an Update document the mutators may
    have set is not submitted. *)
Theorem deletes_and_count_consult_Filter_only
    (DB T : Type) (DRV : Driver DB T) (ms1 ms2 : list Option) (w : World DB T) :
  Filter (bindOptions ms1) = Filter (bindOptions ms2) →
  let f := Filter (bindOptions ms1) in
  let after (db : DB) (c : Call T) :=
    mkWorld (clock_reads w) (oids_drawn w) db (trace w ++ [EvCall c]) in
  DeleteOne ms2 w = Ok (coll_DeleteOne f (store w)).1
                       (after (coll_DeleteOne f (store w)).2 (CDeleteOne f)) ∧
  DeleteMany ms2 w = Ok (coll_DeleteMany f (store w)).1
                        (after (coll_DeleteMany f (store w)).2 (CDeleteMany f)) ∧
  Count ms2 w = Ok (coll_CountDocuments f (store w)).1
                   (after (coll_CountDocuments f (store w)).2 (CCountDocuments f)) ∧
  baseline.DeleteOne ms2 w = DeleteOne ms1 w ∧
  baseline.DeleteMany ms2 w = DeleteMany ms1 w ∧
  baseline.Count ms2 w = Count ms1 w.
Proof.
  intros Heq f after. subst f after.
  unfold baseline.DeleteOne, baseline.DeleteMany, baseline.Count,
    DeleteOne, DeleteMany, Count, submit.
  rewrite <- Heq.
  destruct (coll_DeleteOne _ _), (coll_DeleteMany _ _), (coll_CountDocuments _ _).
  by repeat split.
Qed.

(** X4, on a delete whose mutators also set an update and a sort order. *)
Lemma deletes_and_count_consult_Filter_only_witness :
  baseline.DeleteMany (DRV := sim.memory)
    [setFilter (Some {[ "name" := VStr "a" ]});
     setUpdateDoc (Some {[ "$set" := VM (Some {[ "name" := VStr "b" ]}) ]});
     setSort (Some {[ "name" := VInt 1 ]})]
    (sim.world0 [[("name", VStr "a")]; [("name", VStr "b")]])
  = DeleteMany (DRV := sim.memory)
    [setFilter (Some {[ "name" := VStr "a" ]})]
    (sim.world0 [[("name", VStr "a")]; [("name", VStr "b")]]).
Proof.
  refine (proj1 (proj2 (proj2 (proj2 (proj2
    (deletes_and_count_consult_Filter_only (list Raw) Raw sim.memory _ _ _ _)))))).
  reflexivity.
Defined.

(* ===================================================================== *)
(** * Further properties: the records of an insert *)
(* ===================================================================== *)

Section RecordFacts.

Context {RT : Runtime} {DB T : Type} {DRV : Driver DB T}.

Implicit Types (w : World DB T) (vs : list T).

Lemma nth_record_shift w w1 i (v : T) :
  clock_reads w1 = S (S (clock_reads w)) → oids_drawn w1 = S (oids_drawn w) →
  nth_record w1 i v = nth_record w (S i) v.
Proof.
  intros Hc Ho. unfold nth_record. rewrite Hc, Ho.
  replace (S (oids_drawn w) + i)%nat with (oids_drawn w + S i)%nat by lia.
  replace (S (S (clock_reads w)) + 2 * i)%nat with (clock_reads w + 2 * S i)%nat by lia.
  reflexivity.
Qed.

(** The loop of [InsertMany], record by record. *)
Lemma newRecords_imap vs w :
  ∃ w',
    newRecords vs w = Ok (imap (nth_record w) vs) w' ∧
    clock_reads w' = (clock_reads w + 2 * length vs)%nat ∧
    oids_drawn w' = (oids_drawn w + length vs)%nat ∧
    store w' = store w ∧
    calls (trace w') = calls (trace w).
Proof.
  revert w. induction vs as [|v vs IH]; intros w.
  - exists w. simpl. repeat split; lia.
  - simpl. unfold mbind, St_bind. rewrite newRecord_unfold.
    match goal with |- context [newRecords vs ?w1] =>
      destruct (IH w1) as (w' & -> & Hc & Ho & Hs & Hcalls);
      pose proof (fun i x => nth_record_shift w w1 i x eq_refl eq_refl) as Hshift
    end.
    exists w'. simpl in *. split; [|repeat split].
    + f_equal. f_equal.
      * unfold nth_record.
        by rewrite Nat.add_0_r, Nat.mul_0_r, Nat.add_0_r, Nat.add_1_r.
      * apply imap_ext. intros i x _. apply Hshift.
    + lia.
    + lia.
    + exact Hs.
    + rewrite Hcalls. unfold calls. rewrite omap_app. simpl. by rewrite app_nil_r.
Qed.

Lemma record_ids_imap vs w :
  record_ids (imap (nth_record w) vs) = oid <$> seq (oids_drawn w) (length vs).
Proof.
  unfold record_ids.
  assert (∀ k, omap (fun doc : document T =>
                        match doc with
                        | DRecord r => Some (ID (E r))
                        | DModel _ => None
                        end) (imap (fun i v => nth_record w (k + i) v) vs)
               = oid <$> seq (oids_drawn w + k) (length vs)) as Hgen.
  { induction vs as [|v vs IH]; intros k; [reflexivity|].
    simpl. rewrite Nat.add_0_r. f_equal.
    rewrite <- Nat.add_succ_r, <- IH. f_equal.
    apply imap_ext. intros i x _. simpl. f_equal. lia. }
  specialize (Hgen 0%nat). rewrite Nat.add_0_r in Hgen. exact Hgen.
Qed.

End RecordFacts.

(** X5. InsertMany wraps its models one by one, in order: the model at
    index [i] is submitted in a record of its own that carries the [i]-th
    identifier drawn from the call's start, the clock readings number [2i]
    and [2i+1] as created-at and updated-at, and no deleted-at.  For [n]
    models the call draws exactly [n] identifiers and reads the clock exactly
    [2n] times, then makes one call to the driver, whose answer it returns;
    for no models it still makes that call, with no documents.  InsertOne
    does for its model what InsertMany does at index 0. *)
Theorem InsertMany_records
    (RT : Runtime) (DB T : Type) (DRV : Driver DB T) (vs : list T) (w : World DB T) :
  let docs := imap (nth_record w) vs in
  (∃ w',
     InsertMany vs w = Ok (coll_InsertMany docs (store w)).1 w' ∧
     calls (trace w') = calls (trace w) ++ [CInsertMany docs] ∧
     store w' = (coll_InsertMany docs (store w)).2 ∧
     clock_reads w' = (clock_reads w + 2 * length vs)%nat ∧
     oids_drawn w' = (oids_drawn w + length vs)%nat) ∧
  length docs = length vs ∧
  (∀ v, ∃ w',
     InsertOne v w = Ok (coll_InsertOne (nth_record w 0 v) (store w)).1 w' ∧
     calls (trace w') = calls (trace w) ++ [CInsertOne (nth_record w 0 v)] ∧
     clock_reads w' = (clock_reads w + 2)%nat ∧
     oids_drawn w' = (oids_drawn w + 1)%nat).
Proof.
  intros docs. split; [|split].
  - unfold InsertMany, mbind, St_bind.
    destruct (newRecords_imap vs w) as (w1 & -> & Hc & Ho & Hs & Hcalls).
    unfold submit. fold docs. rewrite Hs.
    destruct (coll_InsertMany docs (store w)) as [err db]. eexists. simpl.
    split; [reflexivity|]. simpl. split; [|by repeat split].
    unfold calls in *. by rewrite omap_app, Hcalls.
  - apply length_imap.
  - intros v. unfold InsertOne, mbind, St_bind. rewrite newRecord_unfold.
    unfold submit, nth_record. simpl.
    rewrite Nat.add_0_r, Nat.add_0_r, Nat.add_1_r.
    destruct (coll_InsertOne _ _) as [err db]. eexists. simpl.
    split; [reflexivity|]. simpl. split; [|split; lia].
    unfold calls. rewrite !omap_app. simpl. by rewrite app_nil_r.
Qed.

(** X6. No identifier is used twice: when the identifier source never
    repeats itself, the records of one InsertMany carry pairwise distinct
    identifiers, as many as there are models, and so do the records of two
    inserts made one after the other. *)
Theorem inserted_ids_distinct
    (RT : Runtime) (DB T : Type) (DRV : Driver DB T)
    (vs1 vs2 : list T) (w : World DB T) :
  (∀ i j, oid i = oid j → i = j) →
  ∃ docs1 docs2 e1 w1 e2 w2,
    InsertMany vs1 w = Ok e1 w1 ∧
    InsertMany vs2 w1 = Ok e2 w2 ∧
    calls (trace w2) = calls (trace w) ++ [CInsertMany docs1; CInsertMany docs2] ∧
    length (record_ids docs1) = length vs1 ∧
    length (record_ids docs2) = length vs2 ∧
    NoDup (record_ids docs1 ++ record_ids docs2).
Proof.
  intros Hinj.
  assert (∀ vs (w0 : World DB T), ∃ e w',
            InsertMany vs w0 = Ok e w' ∧
            calls (trace w') = calls (trace w0) ++ [CInsertMany (imap (nth_record w0) vs)] ∧
            oids_drawn w' = (oids_drawn w0 + length vs)%nat) as Hrun.
  { intros vs w0. unfold InsertMany, mbind, St_bind.
    destruct (newRecords_imap vs w0) as (w1 & -> & _ & Ho & _ & Hcalls).
    unfold submit. destruct (coll_InsertMany _ _) as [err db]. eexists _, _.
    split; [reflexivity|]. simpl. split; [|exact Ho].
    unfold calls in *. by rewrite omap_app, Hcalls. }
  destruct (Hrun vs1 w) as (e1 & w1 & Hr1 & Hc1 & Ho1).
  destruct (Hrun vs2 w1) as (e2 & w2 & Hr2 & Hc2 & Ho2).
  exists (imap (nth_record w) vs1), (imap (nth_record w1) vs2), e1, w1, e2, w2.
  split; [exact Hr1|]. split; [exact Hr2|].
  split; [by rewrite Hc2, Hc1, <- app_assoc|].
  rewrite !record_ids_imap, !length_fmap, !length_seq.
  split; [done|]. split; [done|].
  rewrite Ho1, <- fmap_app, <- seq_app.
  apply NoDup_fmap_2; [|apply NoDup_seq].
  intros i j. apply Hinj.
Qed.

(** X6, on the counter of identifiers of the simulated runtime. *)
Lemma inserted_ids_distinct_witness :
  ∃ docs1 docs2 e1 w1 e2 w2,
    InsertMany (RT := sim.ticking) (DRV := sim.memory)
      [[("name", VStr "a")]; [("name", VStr "b")]] (sim.world0 []) = Ok e1 w1 ∧
    InsertMany (RT := sim.ticking) (DRV := sim.memory)
      [[("name", VStr "c")]] w1 = Ok e2 w2 ∧
    calls (trace w2) = calls (trace (sim.world0 [])) ++ [CInsertMany docs1; CInsertMany docs2] ∧
    length (record_ids docs1) = 2%nat ∧
    length (record_ids docs2) = 1%nat ∧
    NoDup (record_ids docs1 ++ record_ids docs2).
Proof.
  refine (inserted_ids_distinct sim.ticking (list Raw) Raw sim.memory _ _ _ _).
  intros i j Heq. simpl in Heq. lia.
Defined.

(** X7. On a clock that never runs backwards, no inserted record is updated
    before it is created, and the records of one InsertMany are stamped in
    the order of the models: the updated-at of a record is not later than
    the created-at of the next. *)
Theorem inserted_timestamps_ordered
    (RT : Runtime) (DB T : Type) (DRV : Driver DB T) (vs : list T) (w : World DB T) :
  (∀ n, wall n ≤ wall (S n)) →
  ∃ docs e w',
    InsertMany vs w = Ok e w' ∧
    calls (trace w') = calls (trace w) ++ [CInsertMany docs] ∧
    ∀ i r, docs !! i = Some (DRecord r) →
      CreatedAt (E r) ≤ UpdatedAt (E r) ∧
      ∀ r', docs !! S i = Some (DRecord r') → UpdatedAt (E r) ≤ CreatedAt (E r').
Proof.
  intros Hmono.
  exists (imap (nth_record w) vs).
  unfold InsertMany, mbind, St_bind.
  destruct (newRecords_imap vs w) as (w1 & -> & _ & _ & _ & Hcalls).
  unfold submit. destruct (coll_InsertMany _ _) as [err db]. eexists _, _.
  split; [reflexivity|]. simpl. split.
  { unfold calls in *. by rewrite omap_app, Hcalls. }
  intros i r Hi. apply list_lookup_imap_Some in Hi as (v & _ & Hr).
  injection Hr as ->. cbn [E CreatedAt UpdatedAt]. split.
  - match goal with |- wall ?a ≤ wall ?b => replace b with (S a) by lia end.
    apply Hmono.
  - intros r' Hi'. apply list_lookup_imap_Some in Hi' as (v' & _ & Hr').
    injection Hr' as ->. cbn [E CreatedAt UpdatedAt].
    match goal with |- wall ?a ≤ wall ?b => replace b with (S a) by lia end.
    apply Hmono.
Qed.

(** X7, on the advancing clock of the simulated runtime. *)
Lemma inserted_timestamps_ordered_witness :
  ∃ docs e w',
    InsertMany (RT := sim.ticking) (DRV := sim.memory)
      [[("name", VStr "a")]; [("name", VStr "b")]] (sim.world0 []) = Ok e w' ∧
    calls (trace w') = calls (trace (sim.world0 [])) ++ [CInsertMany docs] ∧
    ∀ i r, docs !! i = Some (DRecord r) →
      CreatedAt (E r) ≤ UpdatedAt (E r) ∧
      ∀ r', docs !! S i = Some (DRecord r') → UpdatedAt (E r) ≤ CreatedAt (E r').
Proof.
  refine (inserted_timestamps_ordered sim.ticking (list Raw) Raw sim.memory _ _ _).
  intros n. simpl. lia.
Defined.

(* ===================================================================== *)
(** * Further properties: the stamped writes *)
(* ===================================================================== *)

Section StampFacts.

Context {RT : Runtime} {DB T : Type} {DRV : Driver DB T}.

Implicit Types (w : World DB T) (ms : list Option) (o : option_).

(** The update document [setUpdate] leaves in the option, in one formula:
    the caller's [$set] document, or the empty one, with the stamp in it, put
    under [$set] in the caller's update document, or in the empty one. *)
Lemma setUpdate_stampable o w :
  stampable (Update o) →
  setUpdate o w =
  Ok (with_Update o
        (Some (<["$set" := VM (Some (<["updated_at" := VTime (wall (clock_reads w))]>
                                       (caller_set (Update o))))]>
                 (default ∅ (Update o)))))
     (tick w).
Proof.
  intros [Hnone | [d Hd]].
  - rewrite setUpdate_creates by exact Hnone.
    unfold caller_set. rewrite Hnone. by rewrite insert_empty.
  - destruct (Update o) as [u|] eqn:Hu; [|done]. simpl in Hd.
    rewrite (setUpdate_merges o w u d Hu Hd).
    unfold caller_set. simpl. by rewrite Hd.
Qed.

(** What [setUpdate] does, by what it finds under [$set]. *)
Lemma setUpdate_outcome o w :
  (stampable (Update o) ∧ ∃ o', setUpdate o w = Ok o' (tick w)) ∨
  (get (Update o) "$set" = Some (VM None) ∧ setUpdate o w = Panic PanicNilMap (tick w)) ∨
  (∃ v, get (Update o) "$set" = Some v ∧ is_M v = false ∧
        setUpdate o w = Panic PanicTypeAssertion w).
Proof.
  destruct (get (Update o) "$set") as [v|] eqn:Hget.
  - destruct (is_M v) eqn:Hv.
    + destruct v as [| | | | | |[d|]| |]; try discriminate.
      * left. assert (stampable (Update o)) as Hst by (right; by exists d).
        split; [exact Hst|]. eexists. by apply setUpdate_stampable.
      * right. left. split; [done|]. by apply setUpdate_nil_set.
    + right. right. exists v. split; [done|]. split; [done|].
      by apply (setUpdate_asserts o w v).
  - left. assert (stampable (Update o)) as Hst by (by left).
    split; [exact Hst|]. eexists. by apply setUpdate_stampable.
Qed.

Lemma stampable_excludes o :
  stampable (Update o) →
  get (Update o) "$set" ≠ Some (VM None) ∧
  ∀ v, get (Update o) "$set" = Some v → is_M v = true.
Proof.
  intros [Hnone | [d Hd]].
  - rewrite Hnone. by split.
  - rewrite Hd. split; [done|]. by intros v [= <-].
Qed.

End StampFacts.

(** X8. UpdateOne and UpdateMany return exactly when the bound Update has
    no [$set] entry or has one that holds a map which is not nil.  On a nil
    [bson.M] under [$set] they panic on the assignment into the nil map:
    the clock has been read by then, and nothing is submitted. *)
Theorem update_returns_iff_stampable
    (RT : Runtime) (DB T : Type) (DRV : Driver DB T) (ms : list Option) (w : World DB T) :
  ((∃ err w', UpdateOne ms w = Ok err w') ↔ stampable (Update (bindOptions ms))) ∧
  ((∃ err w', UpdateMany ms w = Ok err w') ↔ stampable (Update (bindOptions ms))) ∧
  (get (Update (bindOptions ms)) "$set" = Some (VM None) →
   UpdateOne ms w = Panic PanicNilMap (tick w) ∧
   UpdateMany ms w = Panic PanicNilMap (tick w) ∧
   calls (trace (tick w)) = calls (trace w)).
Proof.
  pose proof (setUpdate_outcome (bindOptions ms) w) as Hout.
  unfold UpdateOne, UpdateMany, mbind, St_bind, submit.
  destruct Hout as [[Hst [o' Ho']] | [[Hnil Hp] | (v & Hv & HM & Hp)]].
  - rewrite Ho'. split; [|split].
    + split; [done|]. intros _. destruct (coll_UpdateOne _ _ _). by eexists _, _.
    + split; [done|]. intros _. destruct (coll_UpdateMany _ _ _). by eexists _, _.
    + intros Hnil. by destruct (stampable_excludes _ Hst) as [Hne _].
  - rewrite Hp. split; [|split].
    + split; [by intros (? & ? & ?)|].
      intros Hst. by destruct (stampable_excludes _ Hst) as [Hne _].
    + split; [by intros (? & ? & ?)|].
      intros Hst. by destruct (stampable_excludes _ Hst) as [Hne _].
    + intros _. split; [done|]. split; [done|].
      unfold tick, calls. simpl. rewrite omap_app. simpl. by rewrite app_nil_r.
  - rewrite Hp. split; [|split].
    + split; [by intros (? & ? & ?)|].
      intros Hst. destruct (stampable_excludes _ Hst) as [_ Hall].
      specialize (Hall v Hv). congruence.
    + split; [by intros (? & ? & ?)|].
      intros Hst. destruct (stampable_excludes _ Hst) as [_ Hall].
      specialize (Hall v Hv). congruence.
    + intros Hnil. rewrite Hnil in Hv. injection Hv as <-. discriminate.
Qed.

(** X8, on an update whose [$set] entry is the nil map. *)
Lemma update_returns_iff_stampable_witness :
  UpdateOne (RT := sim.ticking) (DRV := sim.memory)
    [setUpdateDoc (Some {[ "$set" := VM None ]})] (sim.world0 [])
  = Panic PanicNilMap (tick (RT := sim.ticking) (sim.world0 [])).
Proof.
  refine (proj1 (proj2 (proj2 (update_returns_iff_stampable
            sim.ticking (list Raw) Raw sim.memory
            [setUpdateDoc (Some {[ "$set" := VM None ]})] (sim.world0 []))) _)).
  reflexivity.
Defined.








(* ===================================================================== *)
(** * Further properties: the document of a record *)
(* ===================================================================== *)



(* ===================================================================== *)
(** * Further properties: calls without mutators *)
(* ===================================================================== *)

(** X14. Nothing stands between a call without mutators and the driver:
    the finds, the deletes and Count submit the nil filter, FindMany with
    find parameters that are all nil, Aggregate the nil pipeline; UpdateOne,
    UpdateMany and the soft deletes submit the nil filter with an update
    document that holds the stamp alone. *)
Theorem operations_without_mutators
    (RT : Runtime) (DB T : Type) (DRV : Driver DB T) (w : World DB T) :
  let now := VTime (wall (clock_reads w)) in
  let submits {A} (op : St (World DB T) A) (c : Call T) :=
    ∃ r w', op w = Ok r w' ∧ calls (trace w') = calls (trace w) ++ [c] in
  submits (FindOne []) (CFindOne None) ∧
  submits (FindMany []) (CFind None (mkFindOptions None None None None)) ∧
  submits (DeleteOne []) (CDeleteOne None) ∧
  submits (DeleteMany []) (CDeleteMany None) ∧
  submits (Count []) (CCountDocuments None) ∧
  submits (Aggregate []) (CAggregate None) ∧
  submits (UpdateOne [])
    (CUpdateOne None (Some {[ "$set" := VM (Some {[ "updated_at" := now ]}) ]})) ∧
  submits (UpdateMany [])
    (CUpdateMany None (Some {[ "$set" := VM (Some {[ "updated_at" := now ]}) ]})) ∧
  submits (SoftDeleteOne [])
    (CUpdateOne None (Some {[ "$set" := VM (Some {[ "deleted_at" := now ]}) ]})) ∧
  submits (SoftDeleteMany [])
    (CUpdateMany None (Some {[ "$set" := VM (Some {[ "deleted_at" := now ]}) ]})).
Proof.
  intros now submits. subst submits. cbv beta.
  assert (∀ (tr : list (Event T)) c, calls (tr ++ [EvCall c]) = calls tr ++ [c]) as Hcall.
  { intros tr c. unfold calls. by rewrite omap_app. }
  assert (∀ (tr : list (Event T)) t c,
            calls ((tr ++ [EvNow t]) ++ [EvCall c]) = calls tr ++ [c]) as Hstamped.
  { intros tr t c. unfold calls. rewrite !omap_app. simpl. by rewrite app_nil_r. }
  split; [rewrite FindOne_unfold; eexists _, _; split; [reflexivity | apply Hcall]|].
  split; [destruct (FindMany_trace [] w) as (r & w' & Hrun & Htr); exists r, w';
          split; [exact Hrun | rewrite Htr; apply Hcall]|].
  split; [unfold DeleteOne, submit; simpl; destruct (coll_DeleteOne _ _);
          eexists _, _; split; [reflexivity | apply Hcall]|].
  split; [unfold DeleteMany, submit; simpl; destruct (coll_DeleteMany _ _);
          eexists _, _; split; [reflexivity | apply Hcall]|].
  split; [unfold Count, submit; simpl; destruct (coll_CountDocuments _ _);
          eexists _, _; split; [reflexivity | apply Hcall]|].
  split.
  { unfold Aggregate, mbind, St_bind, submit, mret, St_ret. simpl.
    destruct (coll_Aggregate _ _) as [[cursor [e|]] db];
      [eexists _, _; split; [reflexivity | apply Hcall]|].
    destruct (Cursor_All cursor) as [? [e|]];
      eexists _, _; (split; [reflexivity | apply Hcall]). }
  assert (∀ op method (u' : gmap string value),
            stamps_then_submits op method [] w u' →
            ∃ r w', op [] w = Ok r w' ∧
                    calls (trace w') = calls (trace w) ++ [method None (Some u')]) as Hst.
  { intros op method u' (r & w' & Hrun & _ & Htr). exists r, w'.
    split; [exact Hrun|]. rewrite Htr. unfold calls. rewrite omap_app. simpl.
    reflexivity. }
  assert (setUpdate option_zero w =
          Ok (with_Update option_zero
                (Some {[ "$set" := VM (Some {[ "updated_at" := now ]}) ]})) (tick w)) as Hup.
  { by rewrite setUpdate_creates. }
  assert (setSoftDelete option_zero w =
          Ok (with_Update option_zero
                (Some {[ "$set" := VM (Some {[ "deleted_at" := now ]}) ]})) (tick w)) as Hdel.
  { by rewrite setSoftDelete_replaces. }
  split; [apply (Hst UpdateOne CUpdateOne), (stamped_write setUpdate); exact Hup|].
  split; [apply (Hst UpdateMany CUpdateMany), (stamped_write setUpdate); exact Hup|].
  split; [apply (Hst SoftDeleteOne CUpdateOne), (stamped_write setSoftDelete); exact Hdel|].
  apply (Hst SoftDeleteMany CUpdateMany), (stamped_write setSoftDelete); exact Hdel.
Qed.

(* ===================================================================== *)
(** * Further properties: connecting *)
(* ===================================================================== *)

Section StringFacts.

Implicit Types (s piece : string) (c : ascii) (l : list string).

Lemma append_nil_l s : ("" ++ s)%string = s.
Proof. reflexivity. Qed.

Lemma append_cons a s1 s2 : (String a s1 ++ s2)%string = String a (s1 ++ s2)%string.
Proof. reflexivity. Qed.

Lemma append_nil_r s : (s ++ "")%string = s.
Proof. induction s as [|a s IH]; [done|]. by rewrite append_cons, IH. Qed.

Lemma append_assoc s1 s2 s3 : ((s1 ++ s2) ++ s3)%string = (s1 ++ (s2 ++ s3))%string.
Proof. induction s1 as [|a s1 IH]; [done|]. by rewrite !append_cons, IH. Qed.

Lemma occurs_append c s1 s2 : occurs c (s1 ++ s2)%string = occurs c s1 || occurs c s2.
Proof.
  induction s1 as [|a s1 IH]; [done|].
  rewrite append_cons. simpl. rewrite IH. by rewrite orb_assoc.
Qed.

Lemma split_from_nonempty c piece s : strings.split_from c piece s ≠ [].
Proof.
  revert piece. induction s as [|a s IH]; intros piece; simpl; [done|].
  destruct (Ascii.eqb a c); [done | apply IH].
Qed.

Lemma Join_cons e l sep :
  l ≠ [] → strings_Join (e :: l) sep = (e ++ sep ++ strings_Join l sep)%string.
Proof. by destruct l. Qed.

(** Joining the pieces gives the string back. *)
Lemma Join_split_from c piece s :
  strings_Join (strings.split_from c piece s) (String c "") = (piece ++ s)%string.
Proof.
  revert piece. induction s as [|a s IH]; intros piece; simpl.
  - by rewrite append_nil_r.
  - destruct (Ascii.eqb a c) eqn:Heq.
    + apply Ascii.eqb_eq in Heq as ->.
      rewrite Join_cons by apply split_from_nonempty.
      by rewrite IH, append_nil_l, append_cons, append_nil_l.
    + by rewrite IH, append_assoc, append_cons, append_nil_l.
Qed.

(** No piece holds the separator. *)
Lemma split_from_clean c piece s :
  occurs c piece = false →
  Forall (fun h => occurs c h = false) (strings.split_from c piece s).
Proof.
  revert piece. induction s as [|a s IH]; intros piece Hp; simpl.
  - by constructor.
  - destruct (Ascii.eqb a c) eqn:Heq.
    + constructor; [exact Hp|]. by apply IH.
    + apply IH. rewrite occurs_append, Hp. simpl. by rewrite Heq.
Qed.

Lemma split_from_append c piece h s :
  occurs c h = false →
  strings.split_from c piece (h ++ s)%string = strings.split_from c (piece ++ h)%string s.
Proof.
  revert piece. induction h as [|a h IH]; intros piece Hh.
  - by rewrite append_nil_l, append_nil_r.
  - simpl in Hh. apply orb_false_iff in Hh as [Ha Hh].
    rewrite append_cons. simpl. rewrite Ha.
    rewrite IH by exact Hh. by rewrite append_assoc, append_cons, append_nil_l.
Qed.

(** Splitting a join of clean pieces gives the pieces back. *)
Lemma Split_Join c l :
  l ≠ [] → Forall (fun h => occurs c h = false) l →
  strings.Split (strings_Join l (String c "")) c = l.
Proof.
  unfold strings.Split. intros Hne Hall.
  induction Hall as [|h l Hh Hall IH]; [done|].
  destruct l as [|h' l'].
  - simpl. rewrite <- (append_nil_r h) at 1.
    rewrite split_from_append by exact Hh. by rewrite append_nil_l.
  - rewrite Join_cons by done. rewrite split_from_append by exact Hh.
    rewrite append_cons, append_nil_l, append_nil_l. simpl.
    rewrite Ascii.eqb_refl. f_equal. by apply IH.
Qed.

End StringFacts.

Section ConnectFacts.

Context {NET : Network}.

(** What [readConfig] returns, by the values of the environment. *)
Lemma readConfig_values (env : Environ) (tr : list NetEvent) :
  readConfig env tr =
  Ok (mkConfig (default "" (env_value env CAddrs)) (default "" (env_value env CName))
               (default "" (env_value env CAuthSource)) (default "" (env_value env CUser))
               (default "" (env_value env CPassword))) tr.
Proof.
  unfold readConfig.
  destruct (Process_config env (mkConfig "" "" "" "" "")) as (cfg & -> & Hget).
  pose proof (Hget CAddrs) as H1. pose proof (Hget CName) as H2.
  pose proof (Hget CAuthSource) as H3. pose proof (Hget CUser) as H4.
  pose proof (Hget CPassword) as H5. destruct cfg. simpl in *. by subst.
Qed.

(** [connect], by the values of the environment and the answers of the
    driver. *)
Lemma connect_unfold (env : Environ) (tr : list NetEvent) :
  let val f := default "" (env_value env f) in
  let opts := mkClientOptions (strings.Split (val CAddrs) ",") (5 * Second) (5 * Second)
                (mkCredential (val CAuthSource) (val CUser) (val CPassword)) in
  connect env tr =
    match mongo_Connect opts, client_Ping opts with
    | Some e, _ => Ok (None, Some e) (tr ++ [NetConnect opts])
    | None, Some e => Ok (None, Some e) (tr ++ [NetConnect opts; NetPing])
    | None, None => Ok (Some (mkClient opts (val CName)), None)
                       (tr ++ [NetConnect opts; NetPing])
    end.
Proof.
  intros val opts. subst opts val. cbv beta.
  unfold connect, mbind, St_bind. rewrite readConfig_values. unfold attempt. simpl.
  destruct (mongo_Connect _) as [e|]; simpl; [reflexivity|].
  destruct (client_Ping _) as [e|]; simpl; by rewrite <- app_assoc.
Qed.

End ConnectFacts.

(** X15. connect is decided by the five values of the environment and the
    two answers of the driver.  It hands the driver the hosts split out of
    ADDRS, the credentials AUTH_SOURCE, USER and PASSWORD and two timeouts of
    five seconds, absent values being empty.  When Connect fails it returns
    that error without pinging; when the ping fails it returns that error;
    otherwise it returns a client for the database NAME.  A client is
    returned exactly when no error is. *)
Theorem connect_outcome (NET : Network) (env : Environ) (tr : list NetEvent) :
  let val f := default "" (env_value env f) in
  let opts := mkClientOptions (strings.Split (val CAddrs) ",") (5 * Second) (5 * Second)
                (mkCredential (val CAuthSource) (val CUser) (val CPassword)) in
  connect env tr =
    match mongo_Connect opts, client_Ping opts with
    | Some e, _ => Ok (None, Some e) (tr ++ [NetConnect opts])
    | None, Some e => Ok (None, Some e) (tr ++ [NetConnect opts; NetPing])
    | None, None => Ok (Some (mkClient opts (val CName)), None)
                       (tr ++ [NetConnect opts; NetPing])
    end ∧
  ∃ res tr', connect env tr = Ok res tr' ∧ (res.1 = None ↔ res.2 ≠ None).
Proof.
  intros val opts. pose proof (connect_unfold env tr) as Heq. cbv zeta in Heq.
  fold val in Heq. fold opts in Heq.
  split; [exact Heq|]. rewrite Heq.
  destruct (mongo_Connect opts) as [e|]; [|destruct (client_Ping opts) as [e|]];
    eexists _, _; (split; [reflexivity|]); simpl; split; congruence.
Qed.

(** X16. The hosts handed to the driver are ADDRS cut at its commas: there
    is at least one host, no host holds a comma, and joined with commas the
    hosts give ADDRS back; an absent or empty ADDRS gives the single empty
    host.  Conversely, any non-empty list of comma-free hosts reaches the
    driver as it is when ADDRS holds its members joined with commas. *)
Theorem connect_hosts_round_trip (NET : Network) (env : Environ) (tr : list NetEvent) :
  ∃ opts rest res,
    connect env tr = Ok res (tr ++ NetConnect opts :: rest) ∧
    strings_Join (Hosts opts) "," = default "" (env_value env CAddrs) ∧
    Hosts opts ≠ [] ∧
    Forall (fun h => occurs "," h = false) (Hosts opts) ∧
    (default "" (env_value env CAddrs) = "" → Hosts opts = [""]) ∧
    (∀ hosts, hosts ≠ [] → Forall (fun h => occurs "," h = false) hosts →
              env_value env CAddrs = Some (strings_Join hosts ",") →
              Hosts opts = hosts).
Proof.
  pose proof (connect_unfold env tr) as Heq. cbv zeta in Heq.
  match type of Heq with context [mongo_Connect ?o] => set (opts := o) in * end.
  assert (∃ rest res, connect env tr = Ok res (tr ++ NetConnect opts :: rest))
    as (rest & res & Hrun).
  { rewrite Heq. destruct (mongo_Connect opts) as [e|];
      [|destruct (client_Ping opts) as [e|]]; by eexists _, _. }
  exists opts, rest, res. split; [exact Hrun|].
  change (Hosts opts) with (strings.Split (default "" (env_value env CAddrs)) ",").
  split; [apply (Join_split_from "," "")|].
  split; [apply split_from_nonempty|].
  split; [by apply split_from_clean|].
  split; [by intros ->|].
  intros hosts Hne Hclean ->. simpl. by apply (Split_Join ",").
Qed.

(** X16, on an address list of two hosts. *)
Lemma connect_hosts_round_trip_witness :
  ∃ opts rest res,
    connect (NET := sim.unreachable) {[ "MGO_ADDRS" := "db1:27017,db2:27017" ]} []
      = Ok res ([] ++ NetConnect opts :: rest) ∧
    Hosts opts = ["db1:27017"; "db2:27017"].
Proof.
  destruct (connect_hosts_round_trip sim.unreachable
              {[ "MGO_ADDRS" := "db1:27017,db2:27017" ]} [])
    as (opts & rest & res & Hrun & _ & _ & _ & _ & Hconv).
  exists opts, rest, res. split; [exact Hrun|].
  apply Hconv.
  - discriminate.
  - repeat constructor.
  - vm_compute. reflexivity.
Defined.

(** X17. New returns a database handle together with its cleanup exactly
    when connect returned a client, and the error of connect alone otherwise;
    the handle is for the database NAME.  The dereference of the client in
    New is never reached with a nil client: New does not panic. *)
Theorem New_handle_or_error (NET : Network) (env : Environ) (tr : list NetEvent) :
  ∃ res tr' c err,
    New env tr = Ok res tr' ∧
    connect env tr = Ok (c, err) tr' ∧
    match c, err with
    | Some c, None =>
        res = (Some (client_Database c), Some (cleanup c), None) ∧
        db_name (client_Database c) = default "" (env_value env CName) ∧
        db_client (client_Database c) = c
    | None, Some e => res = (None, None, Some e)
    | _, _ => False
    end.
Proof.
  pose proof (connect_unfold env tr) as Heq. cbv zeta in Heq.
  unfold New, mbind, St_bind. rewrite Heq.
  match type of Heq with context [mongo_Connect ?o] => set (opts := o) in * end.
  destruct (mongo_Connect opts) as [e|]; [|destruct (client_Ping opts) as [e|]];
    eexists _, _, _, _; (split; [reflexivity|]); (split; [reflexivity|]); simpl;
    try reflexivity.
  by repeat split.
Qed.

(* ===================================================================== *)
(** * Further properties: insert, then find *)
(* ===================================================================== *)

Lemma marshal_Raw (v : Raw) : marshal (fields (Struct := sim.Raw_Struct) v) = v.
Proof.
  unfold marshal, fields, sim.Raw_Struct. rewrite flatten_Inlined.
  induction v as [|[k x] v IH]; [reflexivity|]. simpl. by rewrite IH.
Qed.

Lemma memory_find_last (f : M) (db : list Raw) (doc : Raw) :
  Forall (fun d => sim.matches f d = false) db →
  sim.matches f doc = true →
  head (filter (fun d => sim.matches f d = true) (db ++ [doc])) = Some doc.
Proof.
  intros Hall Hdoc. rewrite filter_app.
  assert (filter (fun d => sim.matches f d = true) db = []) as ->.
  { induction Hall as [|d db Hd _ IH]; [reflexivity|].
    rewrite filter_cons. destruct (decide (sim.matches f d = true)); [congruence | exact IH]. }
  rewrite filter_cons. simpl. by destruct (decide (sim.matches f doc = true)).
Qed.


